(** * jsonquery: the node tree built from a decoded JSON value

    A shallow embedding of [node.go].  The Go program builds a
    pointer-linked tree of [Node]s by mutation; the embedding keeps the
    pointers: nodes live in a store addressed by allocation order, the five
    link fields hold optional addresses, and [parseValue] threads the store
    through a small state-and-panic monad.

    - [int] is a 64-bit integer and [level+1] wraps around ([GoInt.add]).
      The results on the built tree are stated for values whose nesting
      keeps the levels within [int] ([fits]); no value a machine can hold
      is nested 2^63 deep.  That [parseValue] returns is proved for every
      value ([parseValue_total]).
    - [strconv.FormatFloat], [json.Unmarshal] and [ioutil.ReadAll] are
      library functions: they are variables of the section [Builder].
    - A Go map is the list of its entries in the order the runtime
      iterates over them; [sort.Strings] is an insertion sort.
    - [ChildNodes], [InnerText] and [OutputXML] loop until a [nil] link, so
      their models count steps; the theorems give a number of steps that
      is enough, and any larger number does as well. *)

From Stdlib Require Import ZArith Ascii String List Lia Bool Sorted Permutation.
From Stdlib Require Import DecimalString.
From stdpp Require Import base tactics option list sorting.

Set Warnings "-register-all".
Open Scope Z_scope.

(** ** Go's [int] *)

Module GoInt.
(** [int] is the 64-bit signed integer of the supported platforms; its
    addition wraps around. *)
Definition min_int : Z := - 2 ^ 63.
Definition max_int : Z := 2 ^ 63 - 1.
Definition wrap (z : Z) : Z := (z + 2 ^ 63) mod 2 ^ 64 - 2 ^ 63.
Definition add (a b : Z) : Z := wrap (a + b).
End GoInt.

(** ** Strings: Go compares strings byte by byte *)

Definition string_lt (a b : string) : bool := String.ltb a b.

(** [a <= b]: not [b < a]. *)
Definition string_le (a b : string) : Prop := string_lt b a = false.

(** [sort.Strings]: sorts in increasing order of [<].  The order is total
    and equal keys are identical, so every sorting algorithm returns the
    same slice; insertion keeps the model executable. *)
Fixpoint sort_insert (s : string) (l : list string) : list string :=
  match l with
  | [] => [s]
  | x :: l' => if string_lt x s then x :: sort_insert s l' else s :: l
  end.

Fixpoint sort_Strings (l : list string) : list string :=
  match l with
  | [] => []
  | s :: l' => sort_insert s (sort_Strings l')
  end.

(** Strings written one after the other, nothing in between. *)
Definition concat_strings (l : list string) : string :=
  fold_right String.append EmptyString l.

(** ** Nodes and the store *)

Inductive NodeType : Type :=
  | DocumentNode
  | ElementNode
  | TextNode.

Definition NodeType_eqb (a b : NodeType) : bool :=
  match a, b with
  | DocumentNode, DocumentNode | ElementNode, ElementNode
  | TextNode, TextNode => true
  | _, _ => false
  end.

(** A [*Node] is [None] for [nil] and [Some a] for the node allocated as
    number [a]. *)
Abbreviation addr := nat (only parsing).
Abbreviation pointer := (option nat) (only parsing).

Record Node : Type := mkNode {
  Parent : pointer;
  PrevSibling : pointer;
  NextSibling : pointer;
  FirstChild : pointer;
  LastChild : pointer;
  Type_ : NodeType;
  Data : string;
  level : Z
}.

Definition set_Parent (p : pointer) (n : Node) : Node :=
  mkNode p (PrevSibling n) (NextSibling n) (FirstChild n) (LastChild n)
         (Type_ n) (Data n) (level n).
Definition set_PrevSibling (p : pointer) (n : Node) : Node :=
  mkNode (Parent n) p (NextSibling n) (FirstChild n) (LastChild n)
         (Type_ n) (Data n) (level n).
Definition set_NextSibling (p : pointer) (n : Node) : Node :=
  mkNode (Parent n) (PrevSibling n) p (FirstChild n) (LastChild n)
         (Type_ n) (Data n) (level n).
Definition set_FirstChild (p : pointer) (n : Node) : Node :=
  mkNode (Parent n) (PrevSibling n) (NextSibling n) p (LastChild n)
         (Type_ n) (Data n) (level n).
Definition set_LastChild (p : pointer) (n : Node) : Node :=
  mkNode (Parent n) (PrevSibling n) (NextSibling n) (FirstChild n) p
         (Type_ n) (Data n) (level n).

(** [&Node{Type: ty, Data: d, level: l}]: the other fields are zero. *)
Definition Node_lit (ty : NodeType) (d : string) (l : Z) : Node :=
  mkNode None None None None None ty d l.

Abbreviation heap := (list Node) (only parsing).

(** ** The state-and-panic monad

    A computation takes the store and either returns a result with the new
    store or panics ([None]): the only panic of this code is a nil
    dereference. *)

Definition M (A : Type) : Type := heap -> option (A * heap).

Definition ret {A} (a : A) : M A := fun h => Some (a, h).
Definition bind {A B} (m : M A) (f : A -> M B) : M B :=
  fun h => match m h with
           | Some (a, h') => f a h'
           | None => None
           end.

#[global] Instance M_ret : MRet M := @ret.
#[global] Instance M_bind : MBind M := fun A B f m => bind m f.

(** [new n]: allocation hands out the next unused address. *)
Definition new (n : Node) : M addr := fun h => Some (length h, h ++ [n]).

(** [get p f] reads [p.f]; [put p upd] performs the assignment [upd] on the
    node [p] points to.  Both panic on [nil]. *)
Definition get {X} (p : pointer) (f : Node -> X) : M X :=
  fun h => match p with
           | Some a => match h !! a with
                       | Some n => Some (f n, h)
                       | None => None
                       end
           | None => None
           end.
Definition put (p : pointer) (upd : Node -> Node) : M unit :=
  fun h => match p with
           | Some a => match h !! a with
                       | Some n => Some (tt, <[a := upd n]> h)
                       | None => None
                       end
           | None => None
           end.

(** [for _, x := range l { body x }] over a slice. *)
Fixpoint for_each {A} (l : list A) (body : A -> M unit) : M unit :=
  match l with
  | [] => ret tt
  | x :: l' => body x ;; for_each l' body
  end.

(** ** Read-only operations

    The loops of these functions follow [NextSibling] until [nil]; on a
    store with a cycle they would not return.  Each takes the number of
    steps it may use and answers [None] when the steps run out or a nil
    pointer is dereferenced; the store is an argument only, never a
    result. *)

(** [ChildNodes]: [a] is the slice being appended to. *)
Fixpoint ChildNodes_loop (fuel : nat) (h : heap) (nn : pointer)
    (a : list addr) : option (list addr) :=
  match nn with
  | None => Some a
  | Some c =>
      match fuel with
      | O => None
      | S fuel' =>
          cn ← h !! c;
          ChildNodes_loop fuel' h (NextSibling cn) (a ++ [c])
      end
  end.

Definition ChildNodes (fuel : nat) (h : heap) (n : addr)
    : option (list addr) :=
  node ← h !! n;
  ChildNodes_loop fuel h (FirstChild node) [].

(** The closure [output] of [InnerText] and its loop over the children. *)
Fixpoint output (fuel : nat) (h : heap) (buf : string) (n : addr)
    {struct fuel} : option string :=
  match fuel with
  | O => None
  | S fuel' =>
      node ← h !! n;
      if NodeType_eqb (Type_ node) TextNode
      then Some (buf ++ Data node)%string
      else output_children fuel' h buf (FirstChild node)
  end
with output_children (fuel : nat) (h : heap) (buf : string)
    (child : pointer) {struct fuel} : option string :=
  match child with
  | None => Some buf
  | Some c =>
      match fuel with
      | O => None
      | S fuel' =>
          buf' ← output fuel' h buf c;
          cn ← h !! c;
          output_children fuel' h buf' (NextSibling cn)
      end
  end.

Definition InnerText (fuel : nat) (h : heap) (n : addr) : option string :=
  output fuel h EmptyString n.

Definition open_tag (d : string) : string :=
  if String.eqb d EmptyString then "<element>"%string
  else ("<" ++ d ++ ">")%string.

Definition close_tag (d : string) : string :=
  if String.eqb d EmptyString then "</element>"%string
  else ("</" ++ d ++ ">")%string.

Fixpoint outputXML (fuel : nat) (h : heap) (buf : string) (n : addr)
    {struct fuel} : option string :=
  match fuel with
  | O => None
  | S fuel' =>
      node ← h !! n;
      match Type_ node with
      | TextNode => Some (buf ++ Data node)%string
      | ty =>
          let buf1 :=
            match ty with
            | ElementNode => (buf ++ open_tag (Data node))%string
            | _ => buf
            end in
          buf2 ← outputXML_children fuel' h buf1 (FirstChild node);
          Some (buf2 ++ close_tag (Data node))%string
      end
  end
with outputXML_children (fuel : nat) (h : heap) (buf : string)
    (child : pointer) {struct fuel} : option string :=
  match child with
  | None => Some buf
  | Some c =>
      match fuel with
      | O => None
      | S fuel' =>
          buf' ← outputXML fuel' h buf c;
          cn ← h !! c;
          outputXML_children fuel' h buf' (NextSibling cn)
      end
  end.

(** The declaration [<?xml version=.1.0.?>], the dots being double
    quotes (byte 34). *)
Definition xml_decl : string :=
  ("<?xml version=" ++ String (ascii_of_nat 34) "1.0"
     ++ String (ascii_of_nat 34) "?>")%string.

Definition OutputXML (fuel : nat) (h : heap) (n : addr) : option string :=
  node ← h !! n;
  outputXML_children fuel h xml_decl (FirstChild node).

(** ** The tree a store holds

    [tree_at] reads the subtree below a node back from the pointers, as a
    value: the node's type and data and the subtrees of its children along
    the [FirstChild]/[NextSibling] chain. *)

Inductive tree : Type :=
  | T (ty : NodeType) (d : string) (kids : list tree).

Fixpoint tree_at (fuel : nat) (h : heap) (n : addr) {struct fuel}
    : option tree :=
  match fuel with
  | O => None
  | S fuel' =>
      node ← h !! n;
      kids ← forest_at fuel' h (FirstChild node);
      Some (T (Type_ node) (Data node) kids)
  end
with forest_at (fuel : nat) (h : heap) (child : pointer) {struct fuel}
    : option (list tree) :=
  match child with
  | None => Some []
  | Some c =>
      match fuel with
      | O => None
      | S fuel' =>
          t ← tree_at fuel' h c;
          cn ← h !! c;
          ts ← forest_at fuel' h (NextSibling cn);
          Some (t :: ts)
      end
  end.

(** Document order: a node before its children, the children from first to
    last. *)
Fixpoint preorder (t : tree) : list (NodeType * string) :=
  match t with
  | T ty d kids => (ty, d) :: flat_map preorder kids
  end.

Definition is_text (e : NodeType * string) : bool :=
  NodeType_eqb (fst e) TextNode.

(** The text of a subtree as the specification words it: the data of its
    Text nodes, in document order, with nothing in between. *)
Definition text_of (t : tree) : string :=
  concat_strings (map snd (List.filter is_text (preorder t))).

(** A Text node never has children. *)
Fixpoint text_leaves (t : tree) : bool :=
  match t with
  | T ty _ kids =>
      match ty, kids with
      | TextNode, _ :: _ => false
      | _, _ => forallb text_leaves kids
      end
  end.

(** No Document node in the subtree. *)
Fixpoint no_document (t : tree) : bool :=
  match t with
  | T ty _ kids =>
      negb (NodeType_eqb ty DocumentNode) && forallb no_document kids
  end.


(** ** The store a tree occupies

    Allocation is sequential and [parseValue] allocates a node before the
    nodes below it, so a subtree fills a block of consecutive addresses in
    document order.  [layout t p parent prev next lvl] is the block of the
    subtree [t] whose root is at address [p]. *)

Fixpoint size (t : tree) : nat :=
  match t with
  | T _ _ kids =>
      S ((fix sizes (ks : list tree) : nat :=
            match ks with
            | [] => O
            | k :: ks' => (size k + sizes ks')%nat
            end) kids)
  end.

Fixpoint sizes (ks : list tree) : nat :=
  match ks with
  | [] => O
  | k :: ks' => (size k + sizes ks')%nat
  end.

Definition first_of (kids : list tree) (start : addr) : pointer :=
  match kids with
  | [] => None
  | _ :: _ => Some start
  end.

Fixpoint last_of (kids : list tree) (start : addr) : pointer :=
  match kids with
  | [] => None
  | k :: ks =>
      match ks with
      | [] => Some start
      | _ :: _ => last_of ks (start + size k)%nat
      end
  end.

(** The addresses of the roots of a forest stored from [start] on. *)
Fixpoint roots (kids : list tree) (start : addr) : list addr :=
  match kids with
  | [] => []
  | k :: ks => start :: roots ks (start + size k)%nat
  end.

Fixpoint layout (t : tree) (p : addr) (parent prev next : pointer)
    (lvl : Z) {struct t} : list Node :=
  match t with
  | T ty d kids =>
      mkNode parent prev next (first_of kids (S p)) (last_of kids (S p))
             ty d lvl ::
      (fix forest (ks : list tree) (start : addr) (prev : pointer)
         : list Node :=
         match ks with
         | [] => []
         | k :: ks' =>
             layout k start (Some p) prev
                    (first_of ks' (start + size k)%nat) (GoInt.add lvl 1)
             ++ forest ks' (start + size k)%nat (Some start)
         end) kids (S p) None
  end.

Fixpoint layout_forest (ks : list tree) (start : addr)
    (parent prev : pointer) (lvl : Z) : list Node :=
  match ks with
  | [] => []
  | k :: ks' =>
      layout k start parent prev (first_of ks' (start + size k)%nat) lvl
      ++ layout_forest ks' (start + size k)%nat parent (Some start) lvl
  end.

(** The node at the root of the block of [t]. *)
Definition root_node (t : tree) (p : addr) (parent prev next : pointer)
    (lvl : Z) : Node :=
  match t with
  | T ty d kids =>
      mkNode parent prev next (first_of kids (S p)) (last_of kids (S p))
             ty d lvl
  end.

Definition kids_of (t : tree) : list tree :=
  match t with T _ _ kids => kids end.

(** The trees of a document: a Text node has no children and there is no
    Document node below a node. *)
Definition well_shaped (t : tree) : Prop :=
  text_leaves t = true /\ forallb no_document (kids_of t) = true.

(** [top] once the forest [F] stored from [a] on hangs below it. *)
Definition set_children (F : list tree) (a : addr) (tn : Node) : Node :=
  set_LastChild (last_of F a) (set_FirstChild (first_of F a) tn).

(** The old part of the store once the forest [F] has been appended below
    [top], after the child [prev] when there is one: [top] points to the
    new last child (and to the first, if it had none), and [prev] to its
    new sibling. *)
Definition attached (F : list tree) (h : heap) (top : addr)
    (prev : pointer) : heap :=
  match F with
  | [] => h
  | _ :: _ =>
      alter (fun tn =>
               set_LastChild (last_of F (length h))
                 match prev with
                 | None => set_FirstChild (Some (length h)) tn
                 | Some _ => tn
                 end) top
            match prev with
            | Some t => alter (set_NextSibling (Some (length h))) t h
            | None => h
            end
  end.

(** The store [h] holds the block of [t] at address [p]. *)
Definition holds (h : heap) (t : tree) (p : addr)
    (parent prev next : pointer) (lvl : Z) : Prop :=
  exists pre post,
    h = pre ++ layout t p parent prev next lvl ++ post /\ length pre = p.

Definition holds_forest (h : heap) (ks : list tree) (start : addr)
    (parent prev : pointer) (lvl : Z) : Prop :=
  exists pre post,
    h = pre ++ layout_forest ks start parent prev lvl ++ post /\
    length pre = start.

(** The invariant of the nodes allocated from [base] on, in a store of
    [len] nodes: parent and last child are nodes of that part of the store,
    and a node with a first child has a last child. *)
Definition ptr_in (base len : nat) (p : pointer) : Prop :=
  match p with
  | None => True
  | Some q => (base <= q < len)%nat
  end.

Definition node_ok (base len : nat) (n : Node) : Prop :=
  ptr_in base len (Parent n) /\ ptr_in base len (LastChild n) /\
  (FirstChild n <> None -> LastChild n <> None).

Definition store_inv (base : nat) (h : heap) : Prop :=
  forall a n, (base <= a)%nat -> h !! a = Some n ->
              node_ok base (length h) n.

(** [h'] has the nodes of [h], of the same types, and maybe more. *)
Definition frame (h h' : heap) : Prop :=
  forall a n, h !! a = Some n ->
              exists n', h' !! a = Some n' /\ Type_ n' = Type_ n.

(** The links of the children of [q] as the nodes of [cs] hold them: every
    node of the chain has [q] as parent, its [NextSibling] is the next node
    of the chain and its [PrevSibling] the one before, [nil] at the ends,
    and the chain runs from [FirstChild] to [LastChild]. *)
Definition chain_ok (h : heap) (q : addr) (cs : list addr) : Prop :=
  exists nq,
    h !! q = Some nq /\
    FirstChild nq = head cs /\
    LastChild nq = last cs /\
    NoDup cs /\
    forall i c, cs !! i = Some c ->
      exists nc,
        h !! c = Some nc /\
        Parent nc = Some q /\
        NextSibling nc = cs !! S i /\
        PrevSibling nc = match i with O => None | S j => cs !! j end.

(** ** Instances for the examples

    The numbers of the examples are integers below [2^53] in magnitude,
    which [float64] holds exactly and [FormatFloat(v, 'f', -1, 64)]
    renders in decimal without a decimal point; [FormatInt] stands for
    [FormatFloat] on such numbers only.  The store of the examples holds
    one Document node. *)

Definition FormatInt (z : Z) (fmt : ascii) (prec bitSize : Z) : string :=
  NilZero.string_of_int (Z.to_int z).

Definition example_store : heap := [Node_lit DocumentNode EmptyString 0].

#[global] Instance string_eq_dec : EqDecision string := String.string_dec.

(** A store in which the Document node has one child, and a third node not
    linked yet, of the level of that child. *)
Definition example_linked : heap :=
  [mkNode None None None (Some 1%nat) (Some 1%nat) DocumentNode EmptyString 0;
   mkNode (Some 0%nat) None None None None ElementNode "a" 1;
   Node_lit ElementNode "b" 1].

(** What the tests of the repository look at: the inner texts and the
    names of the children of the node a parse returned. *)
Definition texts_of_children {E}
    (r : option (pointer * option E * heap)) : option (list (option string)) :=
  match r with
  | Some (Some doc, None, h) =>
      cs ← ChildNodes (length h) h doc;
      Some (map (InnerText (2 * length h) h) cs)
  | _ => None
  end.

Definition names_of_children {E}
    (r : option (pointer * option E * heap)) : option (list (option string)) :=
  match r with
  | Some (Some doc, None, h) =>
      cs ← ChildNodes (length h) h doc;
      Some (map (fun c => Data <$> h !! c) cs)
  | _ => None
  end.

Definition markup_of_document {E}
    (r : option (pointer * option E * heap)) : option string :=
  match r with
  | Some (Some doc, None, h) => OutputXML (2 * length h) h doc
  | _ => None
  end.

(** ** The builder *)

(** ** Positions

    A position of a document: the steps that lead to it from the root,
    each the index of an array element or the key of an object member.
    [node_at] follows the steps through the store with [ChildNodes], to
    the child of that index or to the first child of that name. *)
Inductive step : Type :=
  | Index (i : nat)
  | Key (k : string).

Definition child_named (h : heap) (cs : list addr) (k : string)
    : option addr :=
  List.find (fun c => match h !! c with
                      | Some n => String.eqb (Data n) k
                      | None => false
                      end) cs.

Fixpoint node_at (fuel : nat) (h : heap) (n : addr) (p : list step)
    : option addr :=
  match p with
  | [] => Some n
  | s :: p' =>
      cs ← ChildNodes fuel h n;
      c ← match s with
          | Index i => cs !! i
          | Key k => child_named h cs k
          end;
      node_at fuel h c p'
  end.

(** The closure [addNode] of [parseValue]; it captures [top]. *)
Definition addNode (top : addr) (n : addr) : M unit :=
  nl ← get (Some n) level;
  tl ← get (Some top) level;
  if nl =? tl then
    put (Some top) (set_NextSibling (Some n));;
    put (Some n) (set_PrevSibling (Some top));;
    tp ← get (Some top) Parent;
    put (Some n) (set_Parent tp);;
    tp ← get (Some top) Parent;
    match tp with
    | Some _ => put tp (set_LastChild (Some n))
    | None => ret tt
    end
  else if nl >? tl then
    put (Some n) (set_Parent (Some top));;
    fc ← get (Some top) FirstChild;
    match fc with
    | None =>
        put (Some top) (set_FirstChild (Some n));;
        put (Some top) (set_LastChild (Some n))
    | Some _ =>
        t ← get (Some top) LastChild;
        put t (set_NextSibling (Some n));;
        put (Some n) (set_PrevSibling t);;
        put (Some top) (set_LastChild (Some n))
    end
  else ret tt.

Section Builder.

(** [float64] and [strconv.FormatFloat] belong to the Go runtime and its
    library; the builder only passes numbers through. *)
Context {float64 : Type}.
Variable FormatFloat : float64 -> ascii -> Z -> Z -> string.

(** The value [json.Unmarshal] stores in an [interface{}].  A
    [map[string]interface{}] is given by its entries, in the order this
    run of the program happens to iterate over them; the keys of a map
    are pairwise distinct ([map_ok]). *)
Inductive value : Type :=
  | JNull
  | JBool (b : bool)
  | JNumber (f : float64)
  | JString (s : string)
  | JArray (v : list value)
  | JObject (v : list (string * value)).

Definition map_keys (v : list (string * value)) : list string :=
  map fst v.

(** [v[key]]: the zero value [nil] when the key is absent. *)
Fixpoint map_index (v : list (string * value)) (key : string) : value :=
  match v with
  | [] => JNull
  | (k, x) :: v' => if String.eqb k key then x else map_index v' key
  end.

Definition map_ok (v : list (string * value)) : Prop :=
  NoDup (map_keys v).

Definition FormatBool (b : bool) : string :=
  if b then "true"%string else "false"%string.

(** [parseValue]: recursion on the value.  The two [range] loops are
    local fixpoints so that the recursion stays structural; the lemmas
    [parseValue_array] and [parseValue_object] below restate them as the
    loops of the source, with [parseValue (map_index v key)] for
    [parseValue(v[key], ...)].  The local [index] is that call with the
    lookup in it: on a key the map does not have, [v[key]] is [nil], on
    which [parseValue] does nothing. *)
Fixpoint parseValue (x : value) (top : addr) (level : Z) {struct x}
  : M unit :=
  match x with
  | JArray v =>
      (fix range (v : list value) : M unit :=
         match v with
         | [] => ret tt
         | vv :: v' =>
             (n ← new (Node_lit ElementNode EmptyString level);
              addNode top n;;
              parseValue vv n (GoInt.add level 1));;
             range v'
         end) v
  | JObject v =>
      (fix range (keys : list string) : M unit :=
         match keys with
         | [] => ret tt
         | key :: keys' =>
             (n ← new (Node_lit ElementNode key level);
              addNode top n;;
              (fix index (m : list (string * value)) : M unit :=
                 match m with
                 | [] => ret tt
                 | (k, vv) :: m' =>
                     if String.eqb k key
                     then parseValue vv n (GoInt.add level 1)
                     else index m'
                 end) v);;
             range keys'
         end) (sort_Strings (map_keys v))
  | JString s =>
      n ← new (Node_lit TextNode s level);
      addNode top n
  | JNumber f =>
      let s := FormatFloat f "f"%char (-1) 64 in
      n ← new (Node_lit TextNode s level);
      addNode top n
  | JBool b =>
      let s := FormatBool b in
      n ← new (Node_lit TextNode s level);
      addNode top n
  | JNull => ret tt
  end.

(** *** The tree of a value *)

(** The children [parseValue x top level] adds below [top]. *)
Fixpoint build (x : value) : list tree :=
  match x with
  | JArray v => map (fun vv => T ElementNode EmptyString (build vv)) v
  | JObject v =>
      map (fun key =>
             T ElementNode key
               ((fix index (m : list (string * value)) : list tree :=
                   match m with
                   | [] => []
                   | (k, vv) :: m' =>
                       if String.eqb k key then build vv else index m'
                   end) v))
          (sort_Strings (map_keys v))
  | JString s => [T TextNode s []]
  | JNumber f => [T TextNode (FormatFloat f "f"%char (-1) 64) []]
  | JBool b => [T TextNode (FormatBool b) []]
  | JNull => []
  end.

(** Nesting depth: the number of containers around the innermost value. *)
Fixpoint depth (x : value) : nat :=
  match x with
  | JArray v => S (list_max (map depth v))
  | JObject v => S (list_max (map (fun kv => depth (snd kv)) v))
  | _ => O
  end.

(** The levels of the nodes of [x] stay within [int] when the value is
    parsed at level [lvl]. *)
Definition fits (lvl : Z) (x : value) : Prop :=
  GoInt.min_int <= lvl /\ lvl + Z.of_nat (depth x) <= GoInt.max_int.

(** The canonical text of a value: the rendering of a scalar, and for a
    container the texts of its members in document order. *)
Fixpoint canonical_text (x : value) : string :=
  match x with
  | JArray v => concat_strings (map canonical_text v)
  | JObject v =>
      concat_strings
        (map (fun key =>
                (fix index (m : list (string * value)) : string :=
                   match m with
                   | [] => EmptyString
                   | (k, vv) :: m' =>
                       if String.eqb k key then canonical_text vv
                       else index m'
                   end) v)
             (sort_Strings (map_keys v)))
  | JString s => s
  | JNumber f => FormatFloat f "f"%char (-1) 64
  | JBool b => FormatBool b
  | JNull => EmptyString
  end.

(** The value at a position of a value: [v[i]] in a slice, [v[key]] in a
    map that has the key. *)
Fixpoint value_at (x : value) (p : list step) {struct p} : option value :=
  match p, x with
  | [], _ => Some x
  | Index i :: p', JArray v =>
      match v !! i with
      | Some y => value_at y p'
      | None => None
      end
  | Key k :: p', JObject m =>
      if existsb (String.eqb k) (map_keys m)
      then value_at (map_index m k) p'
      else None
  | _, _ => None
  end.

(** The number of nodes a call of [parseValue] allocates: one per turn of
    a loop and what the recursive call allocates, one for a scalar, none
    for [nil]. *)
Fixpoint node_count (x : value) : nat :=
  match x with
  | JArray v => list_sum (map (fun vv => S (node_count vv)) v)
  | JObject v =>
      list_sum
        (map (fun key =>
                S ((fix index (m : list (string * value)) : nat :=
                      match m with
                      | [] => O
                      | (k, vv) :: m' =>
                          if String.eqb k key then node_count vv
                          else index m'
                      end) v))
             (sort_Strings (map_keys v)))
  | JNull => O
  | _ => 1%nat
  end.

(** [json.Unmarshal] and [ioutil.ReadAll] are collaborators: each returns
    its result together with an optional error. *)
Context {error io_Reader : Type}.
Variable json_Unmarshal : list Byte.byte -> value * option error.
Variable ioutil_ReadAll : io_Reader -> list Byte.byte * option error.

(** [parse]: on a decoding error no node is allocated. *)
Definition parse (b : list Byte.byte) : M (pointer * option error) :=
  let (v, err) := json_Unmarshal b in
  match err with
  | Some e => mret (None, Some e)
  | None =>
      doc ← new (Node_lit DocumentNode EmptyString 0);
      parseValue v doc 1;;
      mret (Some doc, None)
  end.

Definition Parse (r : io_Reader) : M (pointer * option error) :=
  let (b, err) := ioutil_ReadAll r in
  match err with
  | Some e => mret (None, Some e)
  | None => parse b
  end.

(** The tree of a parsed document. *)
Definition document (v : value) : tree :=
  T DocumentNode EmptyString (build v).

(** [LoadURL].  [http.Get] is a collaborator too: it answers a
    [*Response], [nil] when it fails, and an optional error, and
    [resp.Body] is the reader of the body; both are arguments here.  The
    deferred [resp.Body.Close()] runs once [Parse] has returned; it writes
    no node and its result is dropped.  Reading [resp.Body] on a nil
    response panics. *)
Definition LoadURL {http_Response : Type}
    (http_Get : string -> option http_Response * option error)
    (Response_Body : http_Response -> io_Reader)
    (url : string) : M (pointer * option error) :=
  let (resp, err) := http_Get url in
  match err with
  | Some e => mret (None, Some e)
  | None =>
      match resp with
      | Some r => Parse (Response_Body r)
      | None => fun _ => None
      end
  end.

(** Two decoded values that differ only in the order in which their maps,
    at any depth, hand out their entries: the same keys, and under each
    key values that are the same in this sense. *)
Inductive same_value : value -> value -> Prop :=
  | same_null : same_value JNull JNull
  | same_bool b : same_value (JBool b) (JBool b)
  | same_number f : same_value (JNumber f) (JNumber f)
  | same_string s : same_value (JString s) (JString s)
  | same_array v v' :
      Forall2 same_value v v' -> same_value (JArray v) (JArray v')
  | same_object m m' :
      Permutation (map_keys m) (map_keys m') ->
      (forall key, same_value (map_index m key) (map_index m' key)) ->
      same_value (JObject m) (JObject m').

(** *** Values and collaborators of the examples *)

Definition example_object : list (string * value) :=
  [("name"%string, JString "John");
   ("motorist"%string, JBool true);
   ("city"%string, JString "New York");
   ("cars"%string, JArray [JString "Ford"; JString "BMW"])].

Definition example_array : list value :=
  [JString "Fiesta"; JNull; JArray [JBool false; JString "X3"]].

(** A decoder that answers [v] and a reader that hands out its bytes. *)
Definition decode_to (v : value) (b : list Byte.byte)
    : value * option error := (v, None).

Definition read_bytes (r : list Byte.byte)
    : list Byte.byte * option error := (r, None).

(** *** What [parseValue] does to the store *)

(** One turn of either loop of [parseValue]. *)
Definition element_body (top : addr) (lvl : Z) (name : string)
    (child : value) : M unit :=
  n ← new (Node_lit ElementNode name lvl);
  addNode top n;;
  parseValue child n (GoInt.add lvl 1).

(** Called on a childless [top] of a smaller level, [parseValue] returns,
    appends the block of [build x] to the store and changes nothing of
    the old store but the two child pointers of [top]. *)
Definition parse_ok (x : value) : Prop :=
  forall top lvl (h : heap) tn,
    h !! top = Some tn ->
    FirstChild tn = None -> LastChild tn = None ->
    level tn < lvl -> fits lvl x ->
    parseValue x top lvl h =
      Some (tt, <[top := set_children (build x) (length h) tn]> h
                  ++ layout_forest (build x) (length h) (Some top) None
                       lvl).

(** The state of [top] between two turns of a loop; [prev] is the child
    linked last. *)
Definition loop_state (h : heap) (top : addr) (prev : pointer) (lvl : Z)
    : Prop :=
  exists tn,
    h !! top = Some tn /\ level tn < lvl /\
    match prev with
    | None => FirstChild tn = None
    | Some t =>
        FirstChild tn <> None /\ LastChild tn = Some t /\ t <> top /\
        (t < length h)%nat
    end.

(** ** Induction principles for the nested types *)

Lemma value_induction (P : value -> Prop) :
  P JNull ->
  (forall b, P (JBool b)) ->
  (forall f, P (JNumber f)) ->
  (forall s, P (JString s)) ->
  (forall v, Forall P v -> P (JArray v)) ->
  (forall v, Forall (fun kv => P (snd kv)) v -> P (JObject v)) ->
  forall x, P x.
Proof.
  intros Hnull Hbool Hnum Hstr Harr Hobj.
  fix IH 1. intros [ | b | f | s | v | v].
  - exact Hnull.
  - apply Hbool.
  - apply Hnum.
  - apply Hstr.
  - apply Harr. induction v as [ | x v IHv]; constructor; [apply IH | exact IHv].
  - apply Hobj. induction v as [ | [k x] v IHv]; constructor;
      [apply IH | exact IHv].
Qed.

Lemma tree_induction (P : tree -> Prop) :
  (forall ty d kids, Forall P kids -> P (T ty d kids)) ->
  forall t, P t.
Proof.
  intros Hnode. fix IH 1. intros [ty d kids]. apply Hnode.
  induction kids as [ | k kids IHk]; constructor; [apply IH | exact IHk].
Qed.

(** ** The monad *)

Lemma bind_run {A B} (m : M A) (f : A -> M B) h :
  (m ≫= f) h = match m h with Some (a, h') => f a h' | None => None end.
Proof. reflexivity. Qed.

Lemma for_each_ext {A} (l : list A) (f g : A -> M unit) :
  (forall a h, f a h = g a h) -> forall h, for_each l f h = for_each l g h.
Proof.
  intros Hfg. induction l as [ | a l IHl]; intros h; simpl; [reflexivity | ].
  rewrite !bind_run, Hfg. destruct (g a h) as [[[] h'] | ]; auto.
Qed.

(** ** [int] arithmetic *)

Lemma GoInt_add_small a b :
  GoInt.min_int <= a + b <= GoInt.max_int -> GoInt.add a b = a + b.
Proof.
  unfold GoInt.add, GoInt.wrap, GoInt.min_int, GoInt.max_int. intros H.
  rewrite Z.mod_small; lia.
Qed.

(** ** The source form of the two loops of [parseValue] *)

Lemma parseValue_index v key n lvl :
  (fix index (m : list (string * value)) : M unit :=
     match m with
     | [] => mret tt
     | (k, vv) :: m' =>
         if String.eqb k key then parseValue vv n lvl
         else index m'
     end) v = parseValue (map_index v key) n lvl.
Proof.
  induction v as [ | [k x] v IHv]; simpl; [reflexivity | ].
  destruct (String.eqb k key); [reflexivity | exact IHv].
Qed.

Lemma parseValue_array v top lvl :
  parseValue (JArray v) top lvl =
  for_each v (fun vv =>
    n ← new (Node_lit ElementNode EmptyString lvl);
    addNode top n;;
    parseValue vv n (GoInt.add lvl 1)).
Proof.
  simpl. induction v as [ | x v IHv]; simpl; [reflexivity | ].
  rewrite IHv. reflexivity.
Qed.

Lemma parseValue_object v top lvl h :
  parseValue (JObject v) top lvl h =
  for_each (sort_Strings (map_keys v)) (fun key =>
    n ← new (Node_lit ElementNode key lvl);
    addNode top n;;
    parseValue (map_index v key) n (GoInt.add lvl 1)) h.
Proof.
  simpl. revert h.
  induction (sort_Strings (map_keys v)) as [ | key keys IHk]; intros h;
    simpl; [reflexivity | ].
  rewrite !bind_run. unfold new at 1 3.
  rewrite !bind_run.
  destruct (addNode top (length h) (h ++ [_])) as [[[] h1] | ];
    [ | reflexivity].
  rewrite parseValue_index.
  destruct (parseValue _ _ _ h1) as [[[] h2] | ]; [apply IHk | reflexivity].
Qed.

(** ** [addNode]: the two ways a node is linked below [top] *)

Lemma addNode_first top n h tn nn :
  h !! top = Some tn -> h !! n = Some nn -> top <> n ->
  level tn < level nn -> FirstChild tn = None ->
  addNode top n h =
    Some (tt, <[top := set_LastChild (Some n) (set_FirstChild (Some n) tn)]>
                (<[n := set_Parent (Some top) nn]> h)).
Proof.
  intros Ht Hn Hne Hlv Hfc.
  unfold addNode. rewrite !bind_run. unfold get at 1. rewrite Hn.
  rewrite !bind_run. unfold get at 1. rewrite Ht.
  destruct (Z.eqb_spec (level nn) (level tn)); [lia | ].
  destruct (Z.gtb_spec (level nn) (level tn)); [ | lia].
  rewrite !bind_run. unfold put at 1. rewrite Hn.
  rewrite !bind_run. unfold get at 1.
  rewrite list_lookup_insert_ne by congruence. rewrite Ht, Hfc.
  rewrite !bind_run. unfold put at 1.
  rewrite list_lookup_insert_ne by congruence. rewrite Ht.
  unfold put.
  rewrite list_lookup_insert_eq
    by (rewrite length_insert; eapply lookup_lt_Some; eauto).
  rewrite list_insert_insert_eq. reflexivity.
Qed.

Lemma addNode_next top n t h tn nn tnode f :
  h !! top = Some tn -> h !! n = Some nn -> h !! t = Some tnode ->
  top <> n -> t <> n -> t <> top ->
  level tn < level nn -> FirstChild tn = Some f -> LastChild tn = Some t ->
  addNode top n h =
    Some (tt, <[top := set_LastChild (Some n) tn]>
                (<[n := set_PrevSibling (Some t)
                          (set_Parent (Some top) nn)]>
                   (<[t := set_NextSibling (Some n) tnode]> h))).
Proof.
  intros Ht Hn Hl Hne1 Hne2 Hne3 Hlv Hfc Hlc.
  assert (Hlt : (top < length h)%nat) by (eapply lookup_lt_Some; eauto).
  assert (Hln : (n < length h)%nat) by (eapply lookup_lt_Some; eauto).
  unfold addNode. rewrite !bind_run. unfold get at 1. rewrite Hn.
  rewrite !bind_run. unfold get at 1. rewrite Ht.
  destruct (Z.eqb_spec (level nn) (level tn)); [lia | ].
  destruct (Z.gtb_spec (level nn) (level tn)); [ | lia].
  rewrite !bind_run. unfold put at 1. rewrite Hn.
  rewrite !bind_run. unfold get at 1.
  rewrite list_lookup_insert_ne by congruence. rewrite Ht, Hfc.
  rewrite !bind_run. unfold get at 1.
  rewrite list_lookup_insert_ne by congruence. rewrite Ht, Hlc.
  rewrite !bind_run. unfold put at 1.
  rewrite list_lookup_insert_ne by congruence. rewrite Hl.
  rewrite !bind_run. unfold put at 1.
  rewrite list_lookup_insert_ne by congruence.
  rewrite list_lookup_insert_eq by exact Hln.
  unfold put.
  rewrite list_lookup_insert_ne by congruence.
  rewrite list_lookup_insert_ne by congruence.
  rewrite list_lookup_insert_ne by congruence. rewrite Ht.
  do 2 f_equal. f_equal.
  rewrite (list_insert_insert_ne _ n t) by congruence.
  rewrite list_insert_insert_eq.
  rewrite (list_insert_insert_ne _ t n) by congruence.
  reflexivity.
Qed.

(** ** Blocks of the store *)

Lemma size_unfold ty d kids : size (T ty d kids) = S (sizes kids).
Proof. reflexivity. Qed.

Lemma layout_unfold t p parent prev next lvl :
  layout t p parent prev next lvl =
  root_node t p parent prev next lvl
  :: layout_forest (kids_of t) (S p) (Some p) None (GoInt.add lvl 1).
Proof.
  destruct t as [ty d kids]. simpl. f_equal.
  generalize (S p) (@None nat).
  induction kids as [ | k ks IHk]; intros start pv; simpl; [reflexivity | ].
  rewrite IHk. reflexivity.
Qed.

Lemma length_layout t :
  forall p parent prev next lvl,
    length (layout t p parent prev next lvl) = size t.
Proof.
  induction t as [ty d kids IH] using tree_induction. intros.
  rewrite layout_unfold, size_unfold. simpl. f_equal.
  generalize (S p) (@None nat) (Some p) (GoInt.add lvl 1).
  induction IH as [ | k ks Hk _ IHks]; intros start pv par l; simpl;
    [reflexivity | ].
  rewrite length_app, Hk, IHks. reflexivity.
Qed.

Lemma length_layout_forest ks :
  forall start parent prev lvl,
    length (layout_forest ks start parent prev lvl) = sizes ks.
Proof.
  induction ks as [ | k ks IHks]; intros; simpl; [reflexivity | ].
  rewrite length_app, length_layout, IHks. reflexivity.
Qed.

Lemma size_pos t : (0 < size t)%nat.
Proof. destruct t. rewrite size_unfold. lia. Qed.

Lemma alter_lookup (h : list Node) i f x :
  h !! i = Some x -> alter f i h = <[i := f x]> h.
Proof.
  revert i. induction h as [ | y h IHh]; intros [ | i] Hi; simpl in *;
    try discriminate.
  - congruence.
  - f_equal. apply IHh, Hi.
Qed.

(** Writing the [NextSibling] of the root of a block. *)
Lemma layout_set_next t parent prev next next' lvl (pre post : list Node) :
  alter (set_NextSibling next') (length pre)
    (pre ++ layout t (length pre) parent prev next lvl ++ post) =
  pre ++ layout t (length pre) parent prev next' lvl ++ post.
Proof.
  rewrite !layout_unfold.
  rewrite alter_app_r_alt by lia. rewrite Nat.sub_diag.
  destruct t. reflexivity.
Qed.

(** ** The source form of [build] *)

Lemma build_index v key :
  (fix index (m : list (string * value)) : list tree :=
     match m with
     | [] => []
     | (k, vv) :: m' => if String.eqb k key then build vv else index m'
     end) v = build (map_index v key).
Proof.
  induction v as [ | [k x] v IHv]; simpl; [reflexivity | ].
  destruct (String.eqb k key); [reflexivity | exact IHv].
Qed.

Lemma build_object v :
  build (JObject v) =
  map (fun key => T ElementNode key (build (map_index v key)))
      (sort_Strings (map_keys v)).
Proof.
  simpl. apply map_ext. intros key. rewrite build_index. reflexivity.
Qed.

Lemma depth_map_index v key :
  (depth (map_index v key) < depth (JObject v))%nat.
Proof.
  simpl. apply Nat.lt_succ_r.
  induction v as [ | [k x] v IHv]; simpl; [lia | ].
  destruct (String.eqb k key); lia.
Qed.

Lemma depth_array_elem v x :
  In x v -> (depth x < depth (JArray v))%nat.
Proof.
  simpl. intros Hin. apply Nat.lt_succ_r.
  induction v as [ | y v IHv]; simpl in *; [contradiction | ].
  destruct Hin as [-> | Hin]; [lia | ]. specialize (IHv Hin). lia.
Qed.

(** ** One turn of a loop *)

Lemma set_children_nil a tn :
  FirstChild tn = None -> LastChild tn = None -> set_children [] a tn = tn.
Proof. destruct tn; simpl; intros -> ->; reflexivity. Qed.

(** The recursive call on the node just linked, which is the last of the
    store. *)
Lemma parse_below child (H : list Node) nA lvl :
  parse_ok child ->
  FirstChild nA = None -> LastChild nA = None ->
  level nA < lvl -> fits lvl child ->
  parseValue child (length H) lvl (H ++ [nA]) =
    Some (tt, H ++ set_children (build child) (S (length H)) nA
                :: layout_forest (build child) (S (length H))
                     (Some (length H)) None lvl).
Proof.
  intros Hok Hfc Hlc Hlv Hfit.
  rewrite (Hok (length H) lvl (H ++ [nA]) nA); auto.
  - rewrite length_app. simpl. rewrite Nat.add_1_r.
    rewrite insert_app_r_alt by lia. rewrite Nat.sub_diag. simpl.
    rewrite <- app_assoc. reflexivity.
  - rewrite lookup_app_r by lia. rewrite Nat.sub_diag. reflexivity.
Qed.

Lemma fits_below lvl x y :
  fits lvl x -> (depth y < depth x)%nat ->
  lvl < GoInt.add lvl 1 /\ fits (GoInt.add lvl 1) y.
Proof.
  unfold fits. intros [Hlo Hx] Hy.
  rewrite GoInt_add_small; unfold GoInt.min_int, GoInt.max_int in *; lia.
Qed.

Lemma loop_state_lt h top prev lvl :
  loop_state h top prev lvl -> (top < length h)%nat.
Proof. intros (tn & Ht & _). eapply lookup_lt_Some; eauto. Qed.

(** A turn of a loop appends the block of the new element and links it
    after the previous one. *)
Lemma element_body_run top lvl name child (h : list Node) prev :
  parse_ok child ->
  loop_state h top prev lvl ->
  lvl < GoInt.add lvl 1 -> fits (GoInt.add lvl 1) child ->
  let tx := T ElementNode name (build child) in
  element_body top lvl name child h =
    Some (tt, attached [tx] h top prev
                ++ layout tx (length h) (Some top) prev None lvl).
Proof.
  intros Hok (tn & Ht & Hlv & Hprev) Hlt Hfit tx.
  assert (Htop : (top < length h)%nat) by (eapply lookup_lt_Some; eauto).
  unfold element_body. rewrite bind_run. unfold new at 1.
  rewrite bind_run.
  set (n0 := Node_lit ElementNode name lvl).
  assert (Ht' : (h ++ [n0]) !! top = Some tn)
    by (rewrite lookup_app_l by lia; exact Ht).
  assert (Hn' : (h ++ [n0]) !! length h = Some n0)
    by (rewrite lookup_app_r by lia; rewrite Nat.sub_diag; reflexivity).
  destruct prev as [t | ].
  - destruct Hprev as (Hfc & Hlc & Hne & Hlen).
    destruct (FirstChild tn) as [f | ] eqn:Hf; [ | congruence].
    destruct (lookup_lt_is_Some_2 h t Hlen) as [tnode Htn].
    rewrite (addNode_next top (length h) t (h ++ [n0]) tn n0 tnode f);
      auto; try lia.
    2: { rewrite lookup_app_l by lia. exact Htn. }
    set (H := <[top := set_LastChild (Some (length h)) tn]>
                (<[t := set_NextSibling (Some (length h)) tnode]> h)).
    set (nA := set_PrevSibling (Some t) (set_Parent (Some top) n0)).
    assert (HlenH : length H = length h)
      by (unfold H; rewrite !length_insert; reflexivity).
    assert (Heq : <[top := set_LastChild (Some (length h)) tn]>
                    (<[length h := nA]>
                       (<[t := set_NextSibling (Some (length h)) tnode]>
                          (h ++ [n0]))) = H ++ [nA]).
    { unfold H. rewrite (insert_app_l h) by lia.
      rewrite insert_app_r_alt by (rewrite length_insert; lia).
      rewrite length_insert, Nat.sub_diag. simpl.
      rewrite insert_app_l by (rewrite length_insert; lia).
      reflexivity. }
    rewrite Heq, <- HlenH. rewrite parse_below; auto.
    do 2 f_equal. rewrite layout_unfold. simpl. rewrite HlenH.
    unfold attached, H. f_equal.
    rewrite (alter_lookup _ t _ tnode Htn).
    erewrite alter_lookup
      by (rewrite list_lookup_insert_ne by congruence; exact Ht).
    reflexivity.
  - rewrite (addNode_first top (length h) (h ++ [n0]) tn n0);
      auto; try lia.
    set (H := <[top := set_LastChild (Some (length h))
                         (set_FirstChild (Some (length h)) tn)]> h).
    set (nA := set_Parent (Some top) n0).
    assert (HlenH : length H = length h)
      by (unfold H; rewrite !length_insert; reflexivity).
    assert (Heq : <[top := set_LastChild (Some (length h))
                         (set_FirstChild (Some (length h)) tn)]>
                    (<[length h := nA]> (h ++ [n0])) = H ++ [nA]).
    { unfold H. rewrite insert_app_r_alt by lia.
      rewrite Nat.sub_diag. simpl.
      rewrite insert_app_l by lia. reflexivity. }
    rewrite Heq, <- HlenH. rewrite parse_below; auto.
    do 2 f_equal. rewrite layout_unfold. simpl. rewrite HlenH.
    unfold attached, H. f_equal.
    rewrite (alter_lookup _ top _ tn Ht). reflexivity.
Qed.

Lemma layout_forest_cons k ks start parent prev lvl :
  layout_forest (k :: ks) start parent prev lvl =
  layout k start parent prev (first_of ks (start + size k)%nat) lvl
  ++ layout_forest ks (start + size k)%nat parent (Some start) lvl.
Proof. reflexivity. Qed.

Lemma last_of_cons_cons t k ks start :
  last_of (t :: k :: ks) start = last_of (k :: ks) (start + size t)%nat.
Proof. reflexivity. Qed.

Lemma attached_cons_cons t k ks (h : list Node) top prev :
  attached (t :: k :: ks) h top prev =
  alter (set_LastChild (last_of (k :: ks) (length h + size t)%nat)) top
        (attached [t] h top prev).
Proof.
  unfold attached. rewrite list_alter_alter_eq.
  apply list_alter_ext; [ | reflexivity].
  intros tn _. rewrite last_of_cons_cons. destruct prev; reflexivity.
Qed.

#[local] Arguments size : simpl never.
#[local] Arguments layout : simpl never.
#[local] Arguments last_of : simpl never.

Lemma length_attached F (h : list Node) top prev :
  length (attached F h top prev) = length h.
Proof.
  destruct F; simpl; [reflexivity | ].
  destruct prev; rewrite !length_alter; reflexivity.
Qed.

(** ** A whole loop *)

Lemma for_each_run {A} (name : A -> string) (child : A -> value) top lvl :
  lvl < GoInt.add lvl 1 ->
  forall items,
    Forall (fun a => parse_ok (child a) /\
                     fits (GoInt.add lvl 1) (child a)) items ->
    forall (h : list Node) prev,
      loop_state h top prev lvl ->
      let F := map (fun a => T ElementNode (name a) (build (child a)))
                   items in
      for_each items (fun a => element_body top lvl (name a) (child a)) h =
        Some (tt, attached F h top prev
                    ++ layout_forest F (length h) (Some top) prev lvl).
Proof.
  intros Hlt items Hitems.
  induction Hitems as [ | x items [Hok Hfit] _ IH]; intros h prev Hst;
    cbv zeta; cbn [for_each map].
  { cbn [attached layout_forest]. rewrite app_nil_r. reflexivity. }
  rewrite bind_run.
  rewrite (element_body_run top lvl (name x) (child x) h prev); auto.
  set (tx := T ElementNode (name x) (build (child x))).
  set (h3 := attached [tx] h top prev
               ++ layout tx (length h) (Some top) prev None lvl).
  assert (Htop : (top < length h)%nat) by (eapply loop_state_lt; eauto).
  assert (Hlen3 : length h3 = (length h + size tx)%nat)
    by (unfold h3; rewrite length_app, length_attached, length_layout;
        reflexivity).
  assert (Hst3 : loop_state h3 top (Some (length h)) lvl).
  { destruct Hst as (tn & Ht & Hlv & Hprev).
    assert (Hlt3 : (length h < length h3)%nat)
      by (rewrite Hlen3; pose proof (size_pos tx); lia).
    unfold h3, attached. destruct prev as [t | ].
    - destruct Hprev as (Hfc & _ & Hne & _).
      exists (set_LastChild (last_of [tx] (length h)) tn). split.
      + rewrite lookup_app_l by (rewrite !length_alter; lia).
        rewrite list_lookup_alter_eq.
        rewrite list_lookup_alter_ne by congruence. rewrite Ht.
        reflexivity.
      + simpl. repeat split; auto; lia.
    - exists (set_LastChild (last_of [tx] (length h))
                (set_FirstChild (Some (length h)) tn)). split.
      + rewrite lookup_app_l by (rewrite !length_alter; lia).
        rewrite list_lookup_alter_eq. rewrite Ht. reflexivity.
      + simpl. repeat split; auto; try lia; try discriminate. }
  rewrite (IH h3 (Some (length h)) Hst3).
  do 2 f_equal. rewrite Hlen3.
  change (map (fun a => T ElementNode (name a) (build (child a)))
              (x :: items))
    with (tx :: map (fun a => T ElementNode (name a) (build (child a)))
                    items).
  generalize (map (fun a => T ElementNode (name a) (build (child a)))
                  items).
  intros [ | k ks].
  { unfold h3. cbn [attached layout_forest first_of].
    rewrite !app_nil_r. reflexivity. }
  rewrite (layout_forest_cons tx). rewrite app_assoc. f_equal.
  rewrite attached_cons_cons. unfold h3.
  unfold attached at 1.
  rewrite length_app, length_attached, length_layout.
  pose proof (layout_set_next tx (Some top) prev None
                (Some (length h + size tx)%nat) lvl
                (attached [tx] h top prev) []) as Hs.
  rewrite !app_nil_r, !length_attached in Hs. rewrite Hs.
  rewrite alter_app_l by (rewrite length_attached; lia).
  reflexivity.
Qed.

(** ** [parseValue] on every value *)

Lemma attached_first F (h : list Node) top tn :
  h !! top = Some tn -> FirstChild tn = None -> LastChild tn = None ->
  attached F h top None = <[top := set_children F (length h) tn]> h.
Proof.
  intros Ht Hfc Hlc. destruct F as [ | k ks].
  - rewrite set_children_nil by assumption.
    symmetry. apply list_insert_id, Ht.
  - unfold attached. rewrite (alter_lookup _ _ _ _ Ht). reflexivity.
Qed.

Lemma parse_ok_text ty s top lvl (h : list Node) tn :
  h !! top = Some tn -> FirstChild tn = None -> level tn < lvl ->
  (n ← new (Node_lit ty s lvl); addNode top n) h =
    Some (tt, <[top := set_children [T ty s []] (length h) tn]> h
                ++ layout_forest [T ty s []] (length h) (Some top) None
                     lvl).
Proof.
  intros Ht Hfc Hlv.
  assert (Htop : (top < length h)%nat) by (eapply lookup_lt_Some; eauto).
  rewrite bind_run. unfold new.
  rewrite (addNode_first top (length h) _ tn (Node_lit ty s lvl)); auto;
    try lia.
  - rewrite insert_app_r_alt by lia. rewrite Nat.sub_diag.
    rewrite insert_app_l by lia. reflexivity.
  - rewrite lookup_app_l by lia. exact Ht.
  - rewrite lookup_app_r by lia. rewrite Nat.sub_diag. reflexivity.
Qed.

Lemma parse_ok_loop {A} (name : A -> string) (child : A -> value)
    (items : list A) x top lvl (h : list Node) tn :
  Forall (fun a => parse_ok (child a)) items ->
  Forall (fun a => (depth (child a) < depth x)%nat) items ->
  h !! top = Some tn ->
  FirstChild tn = None -> LastChild tn = None ->
  level tn < lvl -> fits lvl x ->
  let F := map (fun a => T ElementNode (name a) (build (child a))) items in
  for_each items (fun a => element_body top lvl (name a) (child a)) h =
    Some (tt, <[top := set_children F (length h) tn]> h
                ++ layout_forest F (length h) (Some top) None lvl).
Proof.
  intros Hok Hdepth Ht Hfc Hlc Hlv Hfit F. subst F.
  destruct items as [ | a0 items'] eqn:Hitems.
  { cbn. rewrite app_nil_r, set_children_nil by assumption.
    rewrite list_insert_id by exact Ht. reflexivity. }
  rewrite <- Hitems in *.
  assert (Hlt : lvl < GoInt.add lvl 1).
  { subst items. inversion Hdepth; subst.
    eapply fits_below; eauto. }
  rewrite (for_each_run name child top lvl Hlt items) with (prev := None).
  - cbv zeta. rewrite (attached_first _ h top tn); auto.
  - rewrite Forall_forall in *. intros a Ha. split; [auto | ].
    eapply fits_below; eauto.
  - exists tn. auto.
Qed.

Theorem parseValue_correct x : parse_ok x.
Proof.
  induction x as [ | b | f | s | v IH | v IH] using value_induction;
    intros top lvl h tn Ht Hfc Hlc Hlv Hfit.
  - cbn. rewrite app_nil_r, set_children_nil by assumption.
    rewrite list_insert_id by exact Ht. reflexivity.
  - apply parse_ok_text; assumption.
  - apply parse_ok_text; assumption.
  - apply parse_ok_text; assumption.
  - rewrite parseValue_array.
    change (build (JArray v))
      with (map (fun a => T ElementNode EmptyString (build a)) v).
    apply (parse_ok_loop (fun _ => EmptyString) (fun a => a) v (JArray v));
      auto.
    rewrite Forall_forall. intros a Ha. apply depth_array_elem.
    apply list_elem_of_In. exact Ha.
  - rewrite parseValue_object, build_object.
    apply (parse_ok_loop (fun key => key) (map_index v)
             (sort_Strings (map_keys v)) (JObject v)); auto.
    + rewrite Forall_forall. intros key _.
      clear -IH. induction IH as [ | [k y] v Hy _ IHv]; simpl.
      * intros top lvl h tn Ht Hfc Hlc _ _. cbn.
        rewrite app_nil_r, set_children_nil by assumption.
        rewrite list_insert_id by exact Ht. reflexivity.
      * destruct (String.eqb k key); [exact Hy | exact IHv].
    + rewrite Forall_forall. intros key _. apply depth_map_index.
Qed.

(** A number becomes one Text node below [top] whose data is what
    [FormatFloat] answers for format ['f'], precision [-1] and 64 bits. *)
Lemma parseValue_number f top lvl (h : list Node) tn :
  h !! top = Some tn -> FirstChild tn = None -> level tn < lvl ->
  parseValue (JNumber f) top lvl h =
    Some (tt, <[top := set_LastChild (Some (length h))
                         (set_FirstChild (Some (length h)) tn)]> h
                ++ [mkNode (Some top) None None None None TextNode
                           (FormatFloat f "f"%char (-1) 64) lvl]).
Proof.
  intros Ht Hfc Hlv.
  exact (parse_ok_text TextNode _ top lvl h tn Ht Hfc Hlv).
Qed.

(** ** Reading a block *)

Lemma holds_root h t p parent prev next lvl :
  holds h t p parent prev next lvl ->
  h !! p = Some (root_node t p parent prev next lvl).
Proof.
  intros (pre & post & -> & <-). rewrite layout_unfold.
  rewrite lookup_app_r by lia. rewrite Nat.sub_diag. reflexivity.
Qed.

Lemma holds_kids h t p parent prev next lvl :
  holds h t p parent prev next lvl ->
  holds_forest h (kids_of t) (S p) (Some p) None (GoInt.add lvl 1).
Proof.
  intros (pre & post & -> & <-). rewrite layout_unfold.
  exists (pre ++ [root_node t (length pre) parent prev next lvl]), post.
  split.
  - rewrite <- !app_assoc. reflexivity.
  - rewrite length_app. simpl. lia.
Qed.

Lemma holds_forest_cons h k ks start parent prev lvl :
  holds_forest h (k :: ks) start parent prev lvl ->
  holds h k start parent prev (first_of ks (start + size k)%nat) lvl /\
  holds_forest h ks (start + size k)%nat parent (Some start) lvl.
Proof.
  intros (pre & post & -> & <-). rewrite layout_forest_cons. split.
  - exists pre, (layout_forest ks (length pre + size k) parent
                   (Some (length pre)) lvl ++ post).
    rewrite <- app_assoc. auto.
  - exists (pre ++ layout k (length pre) parent prev
                     (first_of ks (length pre + size k)%nat) lvl), post.
    split.
    + rewrite <- !app_assoc. reflexivity.
    + rewrite length_app, length_layout. reflexivity.
Qed.

Lemma holds_length h t p parent prev next lvl :
  holds h t p parent prev next lvl -> (p + size t <= length h)%nat.
Proof.
  intros (pre & post & -> & <-).
  rewrite !length_app, length_layout. lia.
Qed.

Lemma holds_forest_length h ks start parent prev lvl :
  holds_forest h ks start parent prev lvl ->
  (start + sizes ks <= length h)%nat.
Proof.
  intros (pre & post & -> & <-).
  rewrite !length_app, length_layout_forest. lia.
Qed.

(** ** The whole of [parse] *)

Lemma parse_run b v (h0 : list Node) :
  json_Unmarshal b = (v, None) -> fits 1 v ->
  parse b h0 =
    Some ((Some (length h0), None),
          h0 ++ layout (document v) (length h0) None None None 0).
Proof.
  intros Hdec Hfit. unfold parse. rewrite Hdec.
  rewrite bind_run. unfold new. rewrite bind_run.
  rewrite (parseValue_correct v (length h0) 1
             (h0 ++ [Node_lit DocumentNode EmptyString 0])
             (Node_lit DocumentNode EmptyString 0)); auto.
  - unfold mret, M_ret, ret. do 2 f_equal.
    rewrite insert_app_r_alt by lia. rewrite Nat.sub_diag.
    rewrite layout_unfold. rewrite length_app. simpl.
    rewrite Nat.add_1_r. rewrite <- app_assoc. reflexivity.
  - rewrite lookup_app_r by lia. rewrite Nat.sub_diag. reflexivity.
  - simpl. lia.
Qed.

(** ** Strings *)

Lemma append_nil_r s : (s ++ EmptyString)%string = s.
Proof. induction s as [ | c s IHs]; simpl; [ | rewrite IHs]; reflexivity. Qed.

Lemma append_assoc (a b c : string) :
  ((a ++ b) ++ c)%string = (a ++ (b ++ c))%string.
Proof. induction a as [ | x a IHa]; simpl; [ | rewrite IHa]; reflexivity. Qed.

Lemma concat_strings_app l1 l2 :
  concat_strings (l1 ++ l2)
  = (concat_strings l1 ++ concat_strings l2)%string.
Proof.
  induction l1 as [ | x l1 IHl]; simpl; [reflexivity | ].
  rewrite IHl, append_assoc. reflexivity.
Qed.

(** The text of a tree, node by node. *)
Lemma text_of_unfold ty d kids :
  text_of (T ty d kids) =
  ((if NodeType_eqb ty TextNode then d else EmptyString)
     ++ concat_strings (map text_of kids))%string.
Proof.
  unfold text_of. simpl. unfold is_text at 1. simpl.
  assert (Hk : concat_strings
                 (map snd (List.filter is_text (flat_map preorder kids)))
               = concat_strings (map text_of kids)).
  { induction kids as [ | k ks IHk]; simpl; [reflexivity | ].
    rewrite List.filter_app, map_app, concat_strings_app, IHk. reflexivity. }
  destruct (NodeType_eqb ty TextNode); simpl; rewrite Hk; reflexivity.
Qed.

(** ** The tree of a block *)

Lemma forest_at_nil fuel (h : list Node) : forest_at fuel h None = Some [].
Proof. destruct fuel; reflexivity. Qed.

Lemma tree_at_holds t :
  forall (h : list Node) p parent prev next lvl fuel,
    holds h t p parent prev next lvl ->
    (2 * size t - 1 <= fuel)%nat ->
    tree_at fuel h p = Some t.
Proof.
  induction t as [ty d kids IH] using tree_induction.
  intros h p parent prev next lvl fuel Hh Hfuel.
  rewrite size_unfold in Hfuel.
  destruct fuel as [ | fuel]; [lia | ].
  cbn [tree_at]. rewrite (holds_root _ _ _ _ _ _ _ Hh). simpl.
  apply holds_kids in Hh. simpl in Hh.
  assert (Hf : (2 * sizes kids <= fuel)%nat) by lia.
  clear Hfuel.
  enough (Hkids : forest_at fuel h (first_of kids (S p)) = Some kids)
    by (rewrite Hkids; reflexivity).
  revert Hh Hf. generalize (S p) (@None nat) (Some p) (GoInt.add lvl 1).
  clear p parent prev next lvl. revert fuel.
  induction IH as [ | k ks Hk _ IHks];
    intros fuel start pv par l Hh Hf.
  - apply forest_at_nil.
  - apply holds_forest_cons in Hh. destruct Hh as [Hk1 Hks].
    pose proof (size_pos k) as Hpos. cbn [sizes] in Hf.
    destruct fuel as [ | fuel]; [lia | ].
    cbn [first_of forest_at].
    rewrite (Hk h start par pv _ l fuel Hk1) by lia. simpl.
    rewrite (holds_root _ _ _ _ _ _ _ Hk1). simpl.
    destruct k as [kty kd kkids]. simpl.
    rewrite (IHks fuel _ _ _ _ Hks) by lia. reflexivity.
Qed.

(** ** The read-only operations compute on the tree of the store *)

Lemma text_leaves_kids ty d kids :
  text_leaves (T ty d kids) = true ->
  forallb text_leaves kids = true /\
  (NodeType_eqb ty TextNode = true -> kids = []).
Proof.
  simpl. destruct ty, kids; simpl; intros H; split; auto; discriminate.
Qed.

Lemma output_tree_at fuel (h : list Node) :
  (forall n t buf,
      tree_at fuel h n = Some t -> text_leaves t = true ->
      output fuel h buf n = Some (buf ++ text_of t)%string) /\
  (forall c ts buf,
      forest_at fuel h c = Some ts -> forallb text_leaves ts = true ->
      output_children fuel h buf c =
        Some (buf ++ concat_strings (map text_of ts))%string).
Proof.
  induction fuel as [ | fuel [IHt IHf]]; split.
  - discriminate.
  - intros [c | ] ts buf H _; [discriminate | ].
    injection H as <-. simpl. rewrite append_nil_r. reflexivity.
  - intros n t buf H Hl. cbn [tree_at output] in *.
    destruct (h !! n) as [node | ]; [ | discriminate]. simpl in *.
    destruct (forest_at fuel h (FirstChild node)) as [kids | ] eqn:Hk;
      [ | discriminate].
    simpl in H. injection H as <-.
    rewrite text_of_unfold.
    apply text_leaves_kids in Hl. destruct Hl as [Hkl Htxt].
    destruct (NodeType_eqb (Type_ node) TextNode).
    + rewrite (Htxt eq_refl). simpl. rewrite append_nil_r. reflexivity.
    + rewrite (IHf _ _ buf Hk Hkl). reflexivity.
  - intros [c | ] ts buf H Hl.
    2: { rewrite forest_at_nil in H. injection H as <-. simpl.
         rewrite append_nil_r. reflexivity. }
    cbn [forest_at output_children] in *.
    destruct (tree_at fuel h c) as [t | ] eqn:Ht; [ | discriminate].
    simpl in H.
    destruct (h !! c) as [cn | ]; [ | discriminate]. simpl in H.
    destruct (forest_at fuel h (NextSibling cn)) as [ts' | ] eqn:Hts;
      [ | discriminate].
    simpl in H. injection H as <-.
    simpl in Hl. apply andb_prop in Hl. destruct Hl as [Hl1 Hl2].
    rewrite (IHt _ _ buf Ht Hl1). simpl.
    rewrite (IHf _ _ _ Hts Hl2). simpl.
    rewrite append_assoc. reflexivity.
Qed.



(** ** The roots of a forest in the store *)

Lemma roots_holds ks :
  forall (h : list Node) start parent prev lvl i c,
    holds_forest h ks start parent prev lvl ->
    roots ks start !! i = Some c ->
    exists k,
      ks !! i = Some k /\
      holds h k c parent
        (match i with O => prev | S j => roots ks start !! j end)
        (roots ks start !! S i) lvl.
Proof.
  induction ks as [ | k ks IHks]; intros h start parent prev lvl i c Hh Hi;
    [discriminate | ].
  apply holds_forest_cons in Hh. destruct Hh as [Hk Hks].
  destruct i as [ | i]; simpl in Hi.
  - injection Hi as <-. exists k. split; [reflexivity | ].
    replace (roots (k :: ks) start !! 1%nat)
      with (first_of ks (start + size k)%nat); [exact Hk | ].
    destruct ks; reflexivity.
  - destruct (IHks h _ parent (Some start) lvl i c Hks Hi) as (k' & Hk' & Hh').
    exists k'. split; [exact Hk' | ].
    cbn [roots]. rewrite !lookup_cons.
    destruct i; exact Hh'.
Qed.

Lemma roots_range ks start c :
  c ∈ roots ks start -> (start <= c /\ c + 1 <= start + sizes ks)%nat.
Proof.
  revert start. induction ks as [ | k ks IHks]; intros start Hc; simpl in *.
  - inversion Hc.
  - pose proof (size_pos k). apply elem_of_cons in Hc.
    destruct Hc as [-> | Hc]; [lia | ].
    apply IHks in Hc. lia.
Qed.

Lemma roots_NoDup ks start : NoDup (roots ks start).
Proof.
  revert start. induction ks as [ | k ks IHks]; intros start; simpl.
  - constructor.
  - constructor; [ | apply IHks].
    intros Hin. apply roots_range in Hin. pose proof (size_pos k). lia.
Qed.

Lemma length_roots ks start : length (roots ks start) = length ks.
Proof.
  revert start. induction ks as [ | k ks IHks]; intros start; simpl;
    [ | rewrite IHks]; reflexivity.
Qed.

Lemma head_roots ks start : head (roots ks start) = first_of ks start.
Proof. destruct ks; reflexivity. Qed.

Lemma last_roots ks start : last (roots ks start) = last_of ks start.
Proof.
  revert start. induction ks as [ | k ks IHks]; intros start;
    [reflexivity | ].
  destruct ks as [ | k' ks]; [reflexivity | ].
  rewrite last_of_cons_cons, <- IHks. reflexivity.
Qed.

Lemma length_le_sizes ks : (length ks <= sizes ks)%nat.
Proof.
  induction ks as [ | k ks IHks]; simpl; [lia | ].
  pose proof (size_pos k). lia.
Qed.

Lemma ChildNodes_loop_holds ks :
  forall (h : list Node) start parent prev lvl fuel a,
    holds_forest h ks start parent prev lvl ->
    (length ks <= fuel)%nat ->
    ChildNodes_loop fuel h (first_of ks start) a
    = Some (a ++ roots ks start).
Proof.
  induction ks as [ | k ks IHks];
    intros h start parent prev lvl fuel a Hh Hfuel; simpl.
  - destruct fuel; simpl; rewrite app_nil_r; reflexivity.
  - simpl in Hfuel. destruct fuel as [ | fuel]; [lia | ].
    apply holds_forest_cons in Hh. destruct Hh as [Hk Hks].
    cbn [ChildNodes_loop]. rewrite (holds_root _ _ _ _ _ _ _ Hk). simpl.
    destruct k as [kty kd kkids]. simpl.
    rewrite (IHks h _ _ _ _ fuel _ Hks) by lia.
    rewrite <- app_assoc. reflexivity.
Qed.

(** ** The order of strings and [sort.Strings] *)

Lemma ascii_compare_lt_trans a b c :
  Ascii.compare a b = Lt -> Ascii.compare b c = Lt -> Ascii.compare a c = Lt.
Proof.
  unfold Ascii.compare. rewrite !N.compare_lt_iff. apply N.lt_trans.
Qed.

Lemma ascii_compare_refl a : Ascii.compare a a = Eq.
Proof. unfold Ascii.compare. apply N.compare_refl. Qed.

Lemma string_compare_refl s : String.compare s s = Eq.
Proof.
  induction s as [ | c s IHs]; simpl; [reflexivity | ].
  rewrite ascii_compare_refl. exact IHs.
Qed.

Lemma string_compare_lt_trans a :
  forall b c,
    String.compare a b = Lt -> String.compare b c = Lt ->
    String.compare a c = Lt.
Proof.
  induction a as [ | x a IHa]; intros [ | y b] [ | z c]; simpl;
    try discriminate; auto.
  destruct (Ascii.compare x y) eqn:Hxy; try discriminate;
    destruct (Ascii.compare y z) eqn:Hyz; try discriminate; intros H1 H2.
  - apply Ascii.compare_eq_iff in Hxy, Hyz. subst.
    rewrite ascii_compare_refl. eapply IHa; eauto.
  - apply Ascii.compare_eq_iff in Hxy. subst. rewrite Hyz. reflexivity.
  - apply Ascii.compare_eq_iff in Hyz. subst. rewrite Hxy. reflexivity.
  - rewrite (ascii_compare_lt_trans x y z); auto.
Qed.

Lemma string_lt_irrefl a : string_lt a a = false.
Proof. unfold string_lt, String.ltb. rewrite string_compare_refl. reflexivity. Qed.

Lemma string_lt_trans a b c :
  string_lt a b = true -> string_lt b c = true -> string_lt a c = true.
Proof.
  unfold string_lt, String.ltb.
  destruct (String.compare a b) eqn:Hab; try discriminate.
  destruct (String.compare b c) eqn:Hbc; try discriminate.
  rewrite (string_compare_lt_trans a b c); auto.
Qed.

Lemma string_lt_asym a b : string_lt a b = true -> string_lt b a = false.
Proof.
  intros H. destruct (string_lt b a) eqn:Hba; [ | reflexivity].
  rewrite <- (string_lt_irrefl a). symmetry. eapply string_lt_trans; eauto.
Qed.

Lemma string_lt_total a b :
  string_lt a b = false -> string_lt b a = false -> a = b.
Proof.
  unfold string_lt, String.ltb. rewrite (String.compare_antisym b a).
  destruct (String.compare a b) eqn:Hab; simpl; try discriminate.
  intros _ _. apply String.compare_eq_iff. exact Hab.
Qed.

#[local] Instance string_le_trans : Transitive string_le.
Proof.
  intros a b c Hab Hbc. unfold string_le in *.
  destruct (string_lt c a) eqn:Hca; [ | reflexivity].
  destruct (string_lt a b) eqn:Hlt.
  - rewrite <- Hbc. symmetry. eapply string_lt_trans; eauto.
  - pose proof (string_lt_total a b Hlt Hab). subst. congruence.
Qed.

#[local] Instance string_le_antisym : AntiSymm (=) string_le.
Proof. intros a b Hab Hba. apply string_lt_total; assumption. Qed.

Lemma sort_insert_perm s l : Permutation (sort_insert s l) (s :: l).
Proof.
  induction l as [ | x l IHl]; simpl; [reflexivity | ].
  destruct (string_lt x s); [ | reflexivity].
  rewrite IHl. apply perm_swap.
Qed.

Lemma sort_Strings_perm l : Permutation (sort_Strings l) l.
Proof.
  induction l as [ | s l IHl]; simpl; [reflexivity | ].
  rewrite sort_insert_perm, IHl. reflexivity.
Qed.

Lemma sort_insert_sorted s l :
  Sorted string_le l -> Sorted string_le (sort_insert s l).
Proof.
  induction l as [ | x l IHl]; intros Hs; simpl.
  - repeat constructor.
  - destruct (string_lt x s) eqn:Hxs.
    + inversion Hs as [ | ? ? Hl Hhd]; subst.
      constructor; [apply IHl, Hl | ].
      destruct l as [ | y l]; simpl.
      * constructor. apply string_lt_asym, Hxs.
      * destruct (string_lt y s); constructor.
        -- inversion Hhd; assumption.
        -- apply string_lt_asym, Hxs.
    + constructor; [exact Hs | ]. constructor. exact Hxs.
Qed.

Lemma sort_Strings_sorted l : StronglySorted string_le (sort_Strings l).
Proof.
  apply Sorted_StronglySorted; [apply string_le_trans | ].
  induction l as [ | s l IHl]; simpl; [constructor | ].
  apply sort_insert_sorted, IHl.
Qed.

(** Sorting forgets the order in which the keys were met. *)
Lemma sort_Strings_order l1 l2 :
  Permutation l1 l2 -> sort_Strings l1 = sort_Strings l2.
Proof.
  intros Hp. apply (StronglySorted_unique string_le).
  - apply sort_Strings_sorted.
  - apply sort_Strings_sorted.
  - rewrite !sort_Strings_perm. exact Hp.
Qed.

(** With distinct keys the order is strict. *)
Lemma sort_Strings_strict l :
  NoDup l -> Sorted (fun a b => string_lt a b = true) (sort_Strings l).
Proof.
  intros Hnd.
  assert (Hnd' : NoDup (sort_Strings l))
    by (rewrite sort_Strings_perm; exact Hnd).
  pose proof (sort_Strings_sorted l) as Hs.
  induction Hs as [ | x l' Hl IH Hall]; [constructor | ].
  apply NoDup_cons in Hnd'. destruct Hnd' as [Hx Hnd'].
  constructor; [apply IH, Hnd' | ].
  destruct l' as [ | y l']; constructor.
  apply Forall_cons in Hall. destruct Hall as [Hxy _].
  destruct (string_lt x y) eqn:Hlt; [reflexivity | ].
  exfalso. apply Hx. rewrite (string_lt_total x y Hlt Hxy). left.
Qed.

Lemma map_index_In v key :
  NoDup (map_keys v) ->
  forall x, In (key, x) v -> map_index v key = x.
Proof.
  induction v as [ | [k y] v IHv]; intros Hnd x Hin; simpl in *;
    [contradiction | ].
  apply NoDup_cons in Hnd. destruct Hnd as [Hk Hnd].
  destruct Hin as [Heq | Hin].
  - injection Heq as -> ->. rewrite String.eqb_refl. reflexivity.
  - destruct (String.eqb_spec k key) as [-> | Hne]; [ | auto].
    exfalso. apply Hk. apply list_elem_of_In.
    apply (in_map fst) in Hin. exact Hin.
Qed.

Lemma map_index_absent v key :
  ~ In key (map_keys v) -> map_index v key = JNull.
Proof.
  induction v as [ | [k y] v IHv]; intros Hin; simpl in *;
    [reflexivity | ].
  destruct (String.eqb_spec k key) as [-> | Hne]; [tauto | ].
  apply IHv. tauto.
Qed.

(** A map is its entries, whatever the order of iteration. *)
Lemma map_index_order v v' key :
  Permutation v v' -> map_ok v -> map_index v' key = map_index v key.
Proof.
  intros Hp Hok.
  assert (Hok' : NoDup (map_keys v'))
    by (unfold map_keys; rewrite <- Hp; exact Hok).
  destruct (in_dec String.string_dec key (map_keys v)) as [Hin | Hout].
  - apply in_map_iff in Hin. destruct Hin as ([k x] & Hk & Hin).
    simpl in Hk. subst k.
    rewrite (map_index_In v key Hok x Hin).
    apply map_index_In; [exact Hok' | ].
    apply list_elem_of_In. rewrite <- Hp. apply list_elem_of_In. exact Hin.
  - rewrite (map_index_absent v key Hout).
    apply map_index_absent. intros Hin. apply Hout.
    apply list_elem_of_In. unfold map_keys. rewrite Hp.
    apply list_elem_of_In. exact Hin.
Qed.

(** ** Every node of a block roots a block of its own *)

Lemma holds_sub (P : tree -> Prop) :
  (forall ty d kids, P (T ty d kids) -> Forall P kids) ->
  forall t (h : list Node) p parent prev next lvl,
    holds h t p parent prev next lvl -> P t ->
    forall a, (p <= a < p + size t)%nat ->
      exists t' parent' prev' next' lvl',
        holds h t' a parent' prev' next' lvl' /\ P t'.
Proof.
  intros HP t.
  induction t as [ty d kids IH] using tree_induction.
  intros h p parent prev next lvl Hh Ht a Ha.
  destruct (Nat.eq_dec a p) as [-> | Hne]; [eauto 10 | ].
  rewrite size_unfold in Ha.
  apply HP in Ht. apply holds_kids in Hh. cbn [kids_of] in Hh.
  assert (Ha' : (S p <= a < S p + sizes kids)%nat) by lia.
  clear Ha Hne. revert Hh Ha'.
  generalize (S p) (@None nat) (Some p) (GoInt.add lvl 1).
  clear p parent prev next lvl.
  induction IH as [ | k ks Hk _ IHks]; intros start pv par l Hh Ha;
    cbn [sizes] in Ha; [lia | ].
  apply holds_forest_cons in Hh. destruct Hh as [Hk1 Hks].
  apply Forall_cons in Ht. destruct Ht as [HPk HPks].
  destruct (Nat.lt_ge_cases a (start + size k)) as [Hlt | Hge].
  - eapply Hk; eauto. lia.
  - eapply IHks; eauto. lia.
Qed.

(** Every node of a block but its root is a child of a node of the
    block. *)
Lemma holds_parent (P : tree -> Prop) :
  (forall ty d kids, P (T ty d kids) -> Forall P kids) ->
  forall t (h : list Node) p parent prev next lvl,
    holds h t p parent prev next lvl -> P t ->
    forall a, (p < a < p + size t)%nat ->
      exists q tq parent' prev' next' lvl',
        (p <= q)%nat /\
        holds h tq q parent' prev' next' lvl' /\ P tq /\
        a ∈ roots (kids_of tq) (S q).
Proof.
  intros HP t.
  induction t as [ty d kids IH] using tree_induction.
  intros h p parent prev next lvl Hh Ht a Ha.
  rewrite size_unfold in Ha.
  enough (Hcase : a ∈ roots kids (S p) \/
                  exists q tq parent' prev' next' lvl',
                    (S p <= q)%nat /\
                    holds h tq q parent' prev' next' lvl' /\ P tq /\
                    a ∈ roots (kids_of tq) (S q)).
  { destruct Hcase
      as [Hin | (q & tq & pa & pv & nx & l & Hq & Hhq & HPq & Hin)].
    - exists p, (T ty d kids), parent, prev, next, lvl. auto.
    - exists q, tq, pa, pv, nx, l. split; [lia | auto]. }
  apply HP in Ht. apply holds_kids in Hh. cbn [kids_of] in Hh.
  assert (Ha' : (S p <= a < S p + sizes kids)%nat) by lia.
  clear Ha. revert Hh Ha'.
  generalize (S p) (@None nat) (Some p) (GoInt.add lvl 1).
  clear p parent prev next lvl.
  induction IH as [ | k ks Hk _ IHks]; intros start pv par l Hh Ha;
    cbn [sizes] in Ha; [lia | ].
  apply holds_forest_cons in Hh. destruct Hh as [Hk1 Hks].
  apply Forall_cons in Ht. destruct Ht as [HPk HPks].
  cbn [roots].
  destruct (Nat.eq_dec a start) as [-> | Hne]; [left; left | ].
  destruct (Nat.lt_ge_cases a (start + size k)) as [Hlt | Hge].
  - right.
    destruct (Hk h start par pv _ l Hk1 HPk a)
      as (q & tq & pa & pv' & nx & l' & Hq & Hhq & HPq & Hin); [lia | ].
    exists q, tq, pa, pv', nx, l'. auto.
  - destruct (IHks HPks _ _ _ _ Hks) as [Hin | Hin]; [lia | | ].
    + left. right. exact Hin.
    + right.
      destruct Hin as (q & tq & pa & pv' & nx & l' & Hq & Hhq & HPq & Hin).
      exists q, tq, pa, pv', nx, l'. split; [lia | auto].
Qed.

(** The children of the root of a block form a consistent chain. *)
Lemma chain_ok_holds (h : list Node) t p parent prev next lvl :
  holds h t p parent prev next lvl ->
  chain_ok h p (roots (kids_of t) (S p)).
Proof.
  intros Hh. exists (root_node t p parent prev next lvl).
  split; [apply holds_root, Hh | ].
  destruct t as [ty d kids]. cbn [root_node kids_of FirstChild LastChild].
  split; [symmetry; apply head_roots | ].
  split; [symmetry; apply last_roots | ].
  split; [apply roots_NoDup | ].
  intros i c Hc. apply holds_kids in Hh. cbn [kids_of] in Hh.
  destruct (roots_holds kids h _ _ _ _ i c Hh Hc) as (k & Hk & Hhk).
  exists (root_node k c (Some p)
            (match i with O => None | S j => roots kids (S p) !! j end)
            (roots kids (S p) !! S i) (GoInt.add lvl 1)).
  split; [apply holds_root, Hhk | ].
  destruct k. auto.
Qed.

Lemma ChildNodes_holds (h : list Node) t p parent prev next lvl fuel :
  holds h t p parent prev next lvl ->
  (length h <= fuel)%nat ->
  ChildNodes fuel h p = Some (roots (kids_of t) (S p)).
Proof.
  intros Hh Hfuel. unfold ChildNodes.
  rewrite (holds_root _ _ _ _ _ _ _ Hh). simpl.
  apply holds_kids in Hh.
  pose proof (holds_forest_length _ _ _ _ _ _ Hh) as Hlen.
  pose proof (length_le_sizes (kids_of t)).
  destruct t as [ty d kids]. cbn [root_node FirstChild kids_of] in *.
  rewrite (ChildNodes_loop_holds kids h _ _ _ _ fuel [] Hh) by lia.
  reflexivity.
Qed.

(** ** The trees [build] makes *)

Lemma build_shape x :
  forallb text_leaves (build x) = true /\
  forallb no_document (build x) = true /\
  concat_strings (map text_of (build x)) = canonical_text x.
Proof.
  induction x as [ | b | f | s | v IH | v IH] using value_induction;
    try (cbn; rewrite ?append_nil_r; auto; fail).
  - change (build (JArray v))
      with (map (fun a => T ElementNode EmptyString (build a)) v).
    cbn [canonical_text].
    induction IH as [ | x v (Hl & Hd & Ht) _ IHv]; [cbn; auto | ].
    destruct IHv as (Hl' & Hd' & Ht').
    cbn [map forallb concat_strings fold_right].
    rewrite text_of_unfold. cbn [text_leaves no_document NodeType_eqb negb].
    rewrite Hl, Hd, Ht. cbn [andb].
    unfold concat_strings in *. rewrite Hl', Hd', Ht'. auto.
  - rewrite build_object. cbn [canonical_text].
    assert (Hidx : forall key,
               forallb text_leaves (build (map_index v key)) = true /\
               forallb no_document (build (map_index v key)) = true /\
               concat_strings (map text_of (build (map_index v key)))
               = (fix index (m : list (string * value)) : string :=
                    match m with
                    | [] => EmptyString
                    | (k, vv) :: m' =>
                        if String.eqb k key then canonical_text vv
                        else index m'
                    end) v).
    { intros key. clear -IH.
      induction IH as [ | [k y] v Hy _ IHv]; [cbn; auto | ].
      cbn [map_index]. destruct (String.eqb k key); [exact Hy | exact IHv]. }
    induction (sort_Strings (map_keys v)) as [ | key keys IHk];
      [cbn; auto | ].
    destruct IHk as (Hl' & Hd' & Ht').
    destruct (Hidx key) as (Hl & Hd & Ht).
    cbn [map forallb concat_strings fold_right].
    rewrite text_of_unfold. cbn [text_leaves no_document NodeType_eqb negb].
    rewrite Hl, Hd, Ht. cbn [andb].
    unfold concat_strings in *. rewrite Hl', Hd', Ht'. auto.
Qed.

(** ** The children a loop leaves below [top] *)

Lemma chain_ok_forest (h : list Node) q nq ks start lvl :
  h !! q = Some nq ->
  FirstChild nq = first_of ks start -> LastChild nq = last_of ks start ->
  holds_forest h ks start (Some q) None lvl ->
  chain_ok h q (roots ks start).
Proof.
  intros Hq Hfc Hlc Hh. exists nq.
  split; [exact Hq | ].
  split; [rewrite head_roots; exact Hfc | ].
  split; [rewrite last_roots; exact Hlc | ].
  split; [apply roots_NoDup | ].
  intros i c Hc.
  destruct (roots_holds ks h _ _ _ _ i c Hh Hc) as (k & Hk & Hhk).
  eexists. split; [apply holds_root, Hhk | ].
  destruct k. auto.
Qed.

Lemma roots_Forall2 {A} (mk : A -> tree) (items : list A) (h : list Node)
    start parent prev lvl :
  holds_forest h (map mk items) start parent prev lvl ->
  Forall2 (fun c a => exists pv nx, holds h (mk a) c parent pv nx lvl)
          (roots (map mk items) start) items.
Proof.
  intros Hh. apply Forall2_same_length_lookup_2.
  - rewrite length_roots, length_map. reflexivity.
  - intros i c a Hc Ha.
    destruct (roots_holds _ h _ _ _ _ i c Hh Hc) as (k & Hk & Hhk).
    rewrite list_lookup_fmap, Ha in Hk. injection Hk as <-. eauto.
Qed.

(** What [parse_ok] says, read through [ChildNodes]. *)
Lemma parseValue_children x top lvl (h : list Node) tn :
  h !! top = Some tn ->
  FirstChild tn = None -> LastChild tn = None ->
  level tn < lvl -> fits lvl x ->
  exists h',
    parseValue x top lvl h = Some (tt, h') /\
    holds_forest h' (build x) (length h) (Some top) None lvl /\
    (forall k, ChildNodes (length h' + k) h' top
               = Some (roots (build x) (length h))) /\
    chain_ok h' top (roots (build x) (length h)).
Proof.
  intros Ht Hfc Hlc Hlv Hfit.
  assert (Htop : (top < length h)%nat) by (eapply lookup_lt_Some; eauto).
  eexists. split; [apply parseValue_correct; eauto | ].
  set (F := build x).
  set (h' := <[top := set_children F (length h) tn]> h
             ++ layout_forest F (length h) (Some top) None lvl).
  assert (Hh : holds_forest h' F (length h) (Some top) None lvl).
  { exists (<[top := set_children F (length h) tn]> h), [].
    rewrite app_nil_r, length_insert. auto. }
  assert (Hq : h' !! top = Some (set_children F (length h) tn)).
  { unfold h'. rewrite lookup_app_l by (rewrite length_insert; lia).
    apply list_lookup_insert_eq. lia. }
  split; [exact Hh | ]. split.
  - intros k. unfold ChildNodes. rewrite Hq. simpl.
    rewrite (ChildNodes_loop_holds F h' _ _ _ _ _ [] Hh); [reflexivity | ].
    pose proof (holds_forest_length _ _ _ _ _ _ Hh).
    pose proof (length_le_sizes F). lia.
  - eapply chain_ok_forest; eauto.
Qed.

(** ** The document [parse] leaves in the store *)

Lemma parse_holds b v (h0 : list Node) :
  json_Unmarshal b = (v, None) -> fits 1 v ->
  exists h,
    parse b h0 = Some ((Some (length h0), None), h) /\
    holds h (document v) (length h0) None None None 0 /\
    length h = (length h0 + size (document v))%nat /\
    (forall a, (a < length h0)%nat -> h !! a = h0 !! a).
Proof.
  intros Hdec Hfit. eexists. split; [apply parse_run; eauto | ].
  split; [ | split].
  - exists h0, []. rewrite app_nil_r. auto.
  - rewrite length_app, length_layout. reflexivity.
  - intros a Ha. apply lookup_app_l, Ha.
Qed.

Lemma well_shaped_kids ty d kids :
  well_shaped (T ty d kids) -> Forall well_shaped kids.
Proof.
  intros [Hl Hd]. apply text_leaves_kids in Hl. destruct Hl as [Hl _].
  cbn [kids_of] in Hd. rewrite forallb_forall in Hl, Hd.
  apply Forall_forall. intros k Hk. apply list_elem_of_In in Hk.
  split; [auto | ].
  specialize (Hd k Hk). destruct k as [kty kd kk]. simpl in Hd.
  apply andb_prop in Hd. apply Hd.
Qed.

Lemma well_shaped_document v : well_shaped (document v).
Proof.
  destruct (build_shape v) as (Hl & Hd & _). split; [ | exact Hd].
  exact Hl.
Qed.

Lemma InnerText_holds (h : list Node) t p parent prev next lvl :
  holds h t p parent prev next lvl -> text_leaves t = true ->
  forall k,
    tree_at (2 * length h + k) h p = Some t /\
    InnerText (2 * length h + k) h p = Some (text_of t).
Proof.
  intros Hh Hl k.
  pose proof (holds_length _ _ _ _ _ _ _ Hh) as Hlen.
  assert (Ht : tree_at (2 * length h + k) h p = Some t)
    by (eapply tree_at_holds; eauto; lia).
  split; [exact Ht | ].
  unfold InnerText.
  apply (proj1 (output_tree_at _ h) p t EmptyString Ht Hl).
Qed.


(** ** [parseValue] returns on every value

    Whatever the levels: the nodes allocated from address [base] on
    only point to one another, and a node with a first child has a last
    child, so no step of [addNode] dereferences [nil]. *)

Lemma node_ok_grow base len len' n :
  (len <= len')%nat -> node_ok base len n -> node_ok base len' n.
Proof.
  intros Hle (Hp & Hl & Hfl). unfold ptr_in in *.
  split; [ | split; [ | exact Hfl]].
  - destruct (Parent n); simpl in *; [lia | exact I].
  - destruct (LastChild n); simpl in *; [lia | exact I].
Qed.

Lemma frame_refl (h : list Node) : frame h h.
Proof. intros a n Hn. eauto. Qed.

Lemma frame_trans (h1 h2 h3 : list Node) :
  frame h1 h2 -> frame h2 h3 -> frame h1 h3.
Proof.
  intros H12 H23 a n Hn.
  destruct (H12 a n Hn) as (n2 & Hn2 & Ht2).
  destruct (H23 a n2 Hn2) as (n3 & Hn3 & Ht3).
  exists n3. split; [exact Hn3 | congruence].
Qed.

Lemma frame_length (h h' : list Node) a :
  frame h h' -> (a < length h)%nat -> (a < length h')%nat.
Proof.
  intros Hf Ha. destruct (lookup_lt_is_Some_2 h a Ha) as [n Hn].
  destruct (Hf a n Hn) as (n' & Hn' & _).
  eapply lookup_lt_Some; eauto.
Qed.

Lemma put_inv base (h : list Node) a f :
  store_inv base h -> (base <= a < length h)%nat ->
  (forall n, node_ok base (length h) n -> node_ok base (length h) (f n)) ->
  (forall n, Type_ (f n) = Type_ n) ->
  exists h',
    put (Some a) f h = Some (tt, h') /\
    store_inv base h' /\ frame h h' /\ length h' = length h.
Proof.
  intros Hinv Ha Hf Hty.
  destruct (lookup_lt_is_Some_2 h a (proj2 Ha)) as [n Hn].
  exists (<[a := f n]> h). unfold put. rewrite Hn.
  split; [reflexivity | ]. split; [ | split].
  - intros c nc Hc Hnc. rewrite length_insert.
    destruct (Nat.eq_dec a c) as [-> | Hne].
    + rewrite list_lookup_insert_eq in Hnc by lia. injection Hnc as <-.
      apply Hf. eapply Hinv; eauto; lia.
    + rewrite list_lookup_insert_ne in Hnc by exact Hne. eapply Hinv; eauto.
  - intros c nc Hnc. destruct (Nat.eq_dec a c) as [-> | Hne].
    + exists (f n). rewrite list_lookup_insert_eq by lia.
      split; [reflexivity | ]. rewrite Hty. congruence.
    + exists nc. rewrite list_lookup_insert_ne by exact Hne. auto.
  - apply length_insert.
Qed.

Lemma put_put a f g (h : list Node) :
  (put (Some a) f ;; put (Some a) g) h
  = put (Some a) (fun n => g (f n)) h.
Proof.
  rewrite bind_run. unfold put.
  destruct (h !! a) as [n | ] eqn:Hn; [ | reflexivity].
  rewrite list_lookup_insert_eq by (eapply lookup_lt_Some; eauto).
  rewrite list_insert_insert_eq. reflexivity.
Qed.

(** Chaining steps that keep the invariant. *)
Lemma bind_inv base (m : M unit) (k : M unit) (h : list Node) :
  (exists h1, m h = Some (tt, h1) /\ store_inv base h1 /\ frame h h1 /\
              length h1 = length h) ->
  (forall h1, store_inv base h1 -> frame h h1 -> length h1 = length h ->
     exists h', k h1 = Some (tt, h') /\ store_inv base h' /\ frame h1 h' /\
                length h' = length h1) ->
  exists h', (m ;; k) h = Some (tt, h') /\ store_inv base h' /\
             frame h h' /\ length h' = length h.
Proof.
  intros (h1 & Hm & Hinv1 & Hf1 & Hl1) Hk.
  destruct (Hk h1 Hinv1 Hf1 Hl1) as (h' & Hk' & Hinv' & Hf' & Hl').
  exists h'. rewrite bind_run, Hm.
  split; [exact Hk' | ]. split; [exact Hinv' | ].
  split; [eapply frame_trans; eauto | congruence].
Qed.

Ltac put_step :=
  apply put_inv;
  [ assumption
  | simpl in *; lia
  | intros ? (? & ? & ?); split; [ | split]; simpl in *;
    try assumption; try lia; try (intros; discriminate)
  | reflexivity ].

Lemma addNode_total base top n (h : list Node) :
  store_inv base h ->
  (base <= top < length h)%nat -> (base <= n < length h)%nat ->
  exists h',
    addNode top n h = Some (tt, h') /\
    store_inv base h' /\ frame h h' /\ length h' = length h.
Proof.
  intros Hinv Htop Hn.
  destruct (lookup_lt_is_Some_2 h top (proj2 Htop)) as [tn Htn].
  destruct (lookup_lt_is_Some_2 h n (proj2 Hn)) as [nn Hnn].
  unfold addNode. rewrite bind_run. unfold get at 1. rewrite Hnn.
  rewrite bind_run. unfold get at 1. rewrite Htn.
  destruct (level nn =? level tn).
  - (* the sibling branch *)
    apply bind_inv; [put_step | ].
    intros h1 Hinv1 Hf1 Hl1. apply bind_inv; [put_step | ].
    intros h2 Hinv2 Hf2 Hl2.
    destruct (lookup_lt_is_Some_2 h2 top) as [tn2 Htn2]; [lia | ].
    destruct (Hinv2 top tn2 (proj1 Htop) Htn2) as (Hp2 & _).
    rewrite bind_run. unfold get at 1. rewrite Htn2.
    apply (bind_inv base (put (Some n) (set_Parent (Parent tn2)))).
    { unfold ptr_in in Hp2. destruct (Parent tn2); put_step. }
    intros h3 Hinv3 Hf3 Hl3.
    destruct (lookup_lt_is_Some_2 h3 top) as [tn3 Htn3]; [lia | ].
    destruct (Hinv3 top tn3 (proj1 Htop) Htn3) as (Hp3 & _).
    rewrite bind_run. unfold get at 1. rewrite Htn3.
    unfold ptr_in in Hp3. destruct (Parent tn3) as [p | ].
    + put_step.
    + exists h3. split; [reflexivity | ]. split; [assumption | ].
      split; [apply frame_refl | reflexivity].
  - destruct (level nn >? level tn).
    + (* the child branch *)
      apply bind_inv; [put_step | ].
      intros h1 Hinv1 Hf1 Hl1.
      destruct (lookup_lt_is_Some_2 h1 top) as [tn1 Htn1]; [lia | ].
      destruct (Hinv1 top tn1 (proj1 Htop) Htn1) as (_ & Hl1' & Hfl1).
      rewrite bind_run. unfold get at 1. rewrite Htn1.
      destruct (FirstChild tn1) as [fc | ] eqn:Hfc.
      * rewrite bind_run. unfold get at 1. rewrite Htn1.
        unfold ptr_in in Hl1'.
        destruct (LastChild tn1) as [t | ] eqn:Hlc;
          [ | exfalso; apply Hfl1; [discriminate | reflexivity]].
        apply bind_inv; [put_step | ].
        intros h2 Hinv2 Hf2 Hl2. apply bind_inv; [put_step | ].
        intros h3 Hinv3 Hf3 Hl3. put_step.
      * rewrite put_put. put_step.
    + exists h. split; [reflexivity | ]. split; [assumption | ].
      split; [apply frame_refl | reflexivity].
Qed.

Lemma new_inv base (h : list Node) ty d l :
  store_inv base h ->
  store_inv base (h ++ [Node_lit ty d l]) /\
  frame h (h ++ [Node_lit ty d l]).
Proof.
  intros Hinv. split.
  - intros a n Ha Hn. rewrite length_app. simpl.
    apply lookup_app_Some in Hn. destruct Hn as [Hn | [_ Hn]].
    + eapply node_ok_grow; [ | eapply Hinv; eauto]. lia.
    + apply list_lookup_singleton_Some in Hn. destruct Hn as [_ <-].
      repeat split; auto.
  - intros a n Hn. exists n. split; [ | reflexivity].
    apply lookup_app_l_Some, Hn.
Qed.

(** The result of a terminating call, as the lemmas below pass it on. *)
Lemma text_total base top lvl ty d (h : list Node) :
  store_inv base h -> (base <= top < length h)%nat ->
  exists h',
    (n ← new (Node_lit ty d lvl); addNode top n) h = Some (tt, h') /\
    store_inv base h' /\ frame h h'.
Proof.
  intros Hinv Htop. rewrite bind_run. unfold new.
  destruct (new_inv base h ty d lvl Hinv) as [Hinv1 Hf1].
  destruct (addNode_total base top (length h) (h ++ [Node_lit ty d lvl]))
    as (h' & Hrun & Hinv' & Hf' & _); auto.
  - rewrite length_app. simpl. lia.
  - rewrite length_app. simpl. lia.
  - exists h'. split; [exact Hrun | ]. split; [exact Hinv' | ].
    eapply frame_trans; eauto.
Qed.

Lemma element_body_total base top lvl name child (h : list Node) :
  (forall top' lvl' (h1 : list Node),
      store_inv base h1 -> (base <= top' < length h1)%nat ->
      exists h', parseValue child top' lvl' h1 = Some (tt, h') /\
                 store_inv base h' /\ frame h1 h') ->
  store_inv base h -> (base <= top < length h)%nat ->
  exists h',
    element_body top lvl name child h = Some (tt, h') /\
    store_inv base h' /\ frame h h'.
Proof.
  intros Hrec Hinv Htop. unfold element_body. rewrite bind_run. unfold new.
  destruct (new_inv base h ElementNode name lvl Hinv) as [Hinv1 Hf1].
  rewrite bind_run.
  destruct (addNode_total base top (length h)
              (h ++ [Node_lit ElementNode name lvl]))
    as (h2 & Hrun & Hinv2 & Hf2 & Hl2); auto.
  - rewrite length_app. simpl. lia.
  - rewrite length_app. simpl. lia.
  - rewrite Hrun.
    destruct (Hrec (length h) (GoInt.add lvl 1) h2 Hinv2)
      as (h' & Hrun' & Hinv' & Hf').
    + rewrite Hl2, length_app. simpl. lia.
    + exists h'. split; [exact Hrun' | ]. split; [exact Hinv' | ].
      eapply frame_trans; [exact Hf1 | ]. eapply frame_trans; eauto.
Qed.

Lemma for_each_total {A} base top (items : list A) (body : A -> M unit) :
  Forall (fun a => forall (h : list Node),
            store_inv base h -> (base <= top < length h)%nat ->
            exists h', body a h = Some (tt, h') /\ store_inv base h' /\
                       frame h h') items ->
  forall (h : list Node),
    store_inv base h -> (base <= top < length h)%nat ->
    exists h', for_each items body h = Some (tt, h') /\
               store_inv base h' /\ frame h h'.
Proof.
  intros Hbody. induction Hbody as [ | a items Ha _ IH]; intros h Hinv Htop.
  - exists h. split; [reflexivity | ]. split; [exact Hinv | ].
    apply frame_refl.
  - cbn [for_each]. rewrite bind_run.
    destruct (Ha h Hinv Htop) as (h1 & Hrun & Hinv1 & Hf1).
    rewrite Hrun.
    destruct (IH h1 Hinv1) as (h' & Hrun' & Hinv' & Hf').
    + split; [lia | ]. eapply frame_length; eauto. lia.
    + exists h'. split; [exact Hrun' | ]. split; [exact Hinv' | ].
      eapply frame_trans; eauto.
Qed.

Theorem parseValue_total x :
  forall base top lvl (h : list Node),
    store_inv base h -> (base <= top < length h)%nat ->
    exists h', parseValue x top lvl h = Some (tt, h') /\
               store_inv base h' /\ frame h h'.
Proof.
  induction x as [ | b | f | s | v IH | v IH] using value_induction;
    intros base top lvl h Hinv Htop.
  - exists h. split; [reflexivity | ]. split; [exact Hinv | ].
    apply frame_refl.
  - apply text_total; assumption.
  - apply text_total; assumption.
  - apply text_total; assumption.
  - rewrite parseValue_array.
    apply (for_each_total base top); [ | assumption | assumption].
    eapply Forall_impl; [exact IH | ].
    intros a Ha h1 Hinv1 Htop1.
    apply (element_body_total base top lvl EmptyString a h1); auto.
  - rewrite parseValue_object.
    apply (for_each_total base top); [ | assumption | assumption].
    apply Forall_forall. intros key _ h1 Hinv1 Htop1.
    apply (element_body_total base top lvl key (map_index v key) h1); auto.
    clear -IH. induction IH as [ | [k y] v Hy _ IHv]; simpl.
    + intros top' lvl' h1 Hinv1 _. exists h1.
      split; [reflexivity | ]. split; [exact Hinv1 | ]. apply frame_refl.
    + destruct (String.eqb k key); [ | exact IHv].
      intros. apply Hy; assumption.
Qed.

Lemma parse_total b v (h0 : list Node) :
  json_Unmarshal b = (v, None) ->
  exists h doc,
    parse b h0 = Some ((Some (length h0), None), h) /\
    h !! length h0 = Some doc /\ Type_ doc = DocumentNode.
Proof.
  intros Hdec. unfold parse. rewrite Hdec.
  rewrite bind_run. unfold new. rewrite bind_run.
  destruct (parseValue_total v (length h0) (length h0) 1
              (h0 ++ [Node_lit DocumentNode EmptyString 0]))
    as (h & Hrun & _ & Hf).
  - intros a n Ha Hn. apply lookup_app_Some in Hn.
    destruct Hn as [Hn | [_ Hn]].
    + apply lookup_lt_Some in Hn. lia.
    + apply list_lookup_singleton_Some in Hn. destruct Hn as [_ <-].
      repeat split; auto.
  - rewrite length_app. simpl. lia.
  - destruct (Hf (length h0) (Node_lit DocumentNode EmptyString 0))
      as (doc & Hdoc & Hty).
    + rewrite lookup_app_r by lia. rewrite Nat.sub_diag. reflexivity.
    + exists h, doc. rewrite Hrun. auto.
Qed.

(** ** Claims *)

(** C1. The children emitted for an object form a sibling chain of
    Element nodes named after the keys in ascending order of the keys,
    each key once; the store that results does not depend on the order
    in which the map hands out its entries. *)
Theorem C1_object_children_sorted (m : list (string * value)) top lvl
    (h : list Node) tn :
  h !! top = Some tn ->
  FirstChild tn = None -> LastChild tn = None ->
  level tn < lvl -> fits lvl (JObject m) -> map_ok m ->
  exists h' cs,
    parseValue (JObject m) top lvl h = Some (tt, h') /\
    (forall k, ChildNodes (length h' + k) h' top = Some cs) /\
    chain_ok h' top cs /\
    Forall2 (fun c key => exists nc,
               h' !! c = Some nc /\ Type_ nc = ElementNode /\
               Data nc = key)
            cs (sort_Strings (map_keys m)) /\
    Sorted (fun a b => string_lt a b = true) (sort_Strings (map_keys m)) /\
    Permutation (sort_Strings (map_keys m)) (map_keys m) /\
    (forall m', Permutation m m' ->
       parseValue (JObject m') top lvl h = Some (tt, h')).
Proof.
  intros Ht Hfc Hlc Hlv Hfit Hok.
  destruct (parseValue_children (JObject m) top lvl h tn)
    as (h' & Hrun & Hh & Hcs & Hchain); auto.
  exists h', (roots (build (JObject m)) (length h)).
  repeat split; auto.
  - rewrite build_object in *.
    apply roots_Forall2 in Hh.
    eapply Forall2_impl; [exact Hh | ].
    intros c key (pv & nx & Hc). eexists.
    split; [apply holds_root, Hc | ]. auto.
  - apply sort_Strings_strict, Hok.
  - apply sort_Strings_perm.
  - intros m' Hp. rewrite <- Hrun. rewrite !parseValue_object.
    rewrite (sort_Strings_order (map_keys m') (map_keys m))
      by (unfold map_keys; rewrite Hp; reflexivity).
    apply for_each_ext. intros key h1.
    rewrite (map_index_order m m' key Hp Hok). reflexivity.
Qed.

(** C2. An array parsed as the document: the root has one child per
    element, in the order of the array, and the inner text of each child
    is the canonical text of its element. *)
Theorem C2_array_children_text b (v : list value) (h0 : list Node) :
  json_Unmarshal b = (JArray v, None) -> fits 1 (JArray v) ->
  exists h cs,
    parse b h0 = Some ((Some (length h0), None), h) /\
    (forall k, ChildNodes (2 * length h + k) h (length h0) = Some cs) /\
    length cs = length v /\
    Forall2 (fun c x =>
               forall k, InnerText (2 * length h + k) h c
                         = Some (canonical_text x))
            cs v.
Proof.
  intros Hdec Hfit.
  destruct (parse_holds b (JArray v) h0 Hdec Hfit)
    as (h & Hrun & Hh & Hlen & _).
  exists h, (roots (kids_of (document (JArray v))) (S (length h0))).
  split; [exact Hrun | ]. split.
  { intros k. eapply ChildNodes_holds; eauto. lia. }
  apply holds_kids in Hh.
  change (kids_of (document (JArray v)))
    with (map (fun a => T ElementNode EmptyString (build a)) v) in *.
  split; [rewrite length_roots, length_map; reflexivity | ].
  apply roots_Forall2 in Hh.
  eapply Forall2_impl; [exact Hh | ].
  intros c x (pv & nx & Hc) k.
  destruct (build_shape x) as (Hl & _ & Htxt).
  destruct (InnerText_holds h _ c _ _ _ _ Hc) with (k := k) as [_ Hin];
    [exact Hl | ].
  rewrite Hin, text_of_unfold, Htxt. reflexivity.
Qed.

Lemma child_named_first (h : list Node) (k : string) :
  forall cs keys,
    Forall2 (fun c key => exists n, h !! c = Some n /\ Data n = key)
            cs keys ->
    k ∈ keys ->
    exists c j,
      child_named h cs k = Some c /\ cs !! j = Some c /\
      keys !! j = Some k.
Proof.
  intros cs keys Hall. induction Hall as [ | c key cs keys Hc _ IH];
    intros Hk; [inversion Hk | ].
  destruct Hc as (n & Hn & Hd). unfold child_named. cbn [List.find].
  rewrite Hn, Hd.
  destruct (String.eqb key k) eqn:He.
  - apply String.eqb_eq in He. exists c, O.
    split; [reflexivity | ]. split; [reflexivity | ].
    cbn. congruence.
  - apply String.eqb_neq in He.
    apply elem_of_cons in Hk. destruct Hk as [Hk | Hk]; [congruence | ].
    destruct (IH Hk) as (c' & j & Hf & Hc' & Hj).
    exists c', (S j). auto.
Qed.

(** The node of a position holds the block of the value at that
    position. *)
Lemma node_at_holds (h : list Node) :
  forall p x y ty d a pa pv nx l,
    holds h (T ty d (build x)) a pa pv nx l ->
    value_at x p = Some y ->
    exists c d' pa' pv' nx' l',
      (forall fuel, (length h <= fuel)%nat ->
                    node_at fuel h a p = Some c) /\
      holds h (T match p with [] => ty | _ => ElementNode end d' (build y))
            c pa' pv' nx' l'.
Proof.
  intros p.
  induction p as [ | s p IH]; intros x y ty d a pa pv nx l Hh Hv.
  { injection Hv as <-. exists a, d, pa, pv, nx, l. auto. }
  pose proof (holds_kids _ _ _ _ _ _ _ Hh) as Hk. cbn [kids_of] in Hk.
  assert (Hstep : exists c x' d1 pa1 pv1 nx1 l1,
             match s with
             | Index i => roots (build x) (S a) !! i
             | Key k => child_named h (roots (build x) (S a)) k
             end = Some c /\
             holds h (T ElementNode d1 (build x')) c pa1 pv1 nx1 l1 /\
             value_at x' p = Some y).
  { destruct s as [i | k]; destruct x as [ | | | | v | m];
      try discriminate Hv; cbn [value_at] in Hv.
    - destruct (v !! i) as [x' | ] eqn:Hi; [ | discriminate Hv].
      change (build (JArray v))
        with (map (fun e => T ElementNode EmptyString (build e)) v) in *.
      apply roots_Forall2 in Hk.
      destruct (Forall2_lookup_r _ _ _ _ _ Hk Hi)
        as (c & Hc & pv1 & nx1 & Hhc).
      exists c, x', EmptyString, (Some a), pv1, nx1, (GoInt.add l 1).
      auto.
    - destruct (existsb (String.eqb k) (map_keys m)) eqn:Hex;
        [ | discriminate Hv].
      apply existsb_exists in Hex. destruct Hex as (k' & Hin & He).
      apply String.eqb_eq in He. subst k'.
      rewrite build_object in *.
      set (keys := sort_Strings (map_keys m)) in *.
      apply roots_Forall2 in Hk.
      assert (Hkeys : k ∈ keys).
      { unfold keys. rewrite sort_Strings_perm. apply list_elem_of_In, Hin. }
      assert (Hdata : Forall2
                (fun c key => exists n, h !! c = Some n /\ Data n = key)
                (roots (map (fun key =>
                               T ElementNode key (build (map_index m key)))
                            keys) (S a)) keys).
      { eapply Forall2_impl; [exact Hk | ].
        intros c key (pv1 & nx1 & Hhc). apply holds_root in Hhc. eauto. }
      destruct (child_named_first h k _ keys Hdata Hkeys)
        as (c & j & Hf & Hc & Hj).
      destruct (Forall2_lookup_l _ _ _ _ _ Hk Hc)
        as (k' & Hk' & pv1 & nx1 & Hhc).
      assert (k' = k) by congruence. subst k'.
      exists c, (map_index m k), k, (Some a), pv1, nx1, (GoInt.add l 1).
      auto. }
  destruct Hstep as (c & x' & d1 & pa1 & pv1 & nx1 & l1 & Hgo & Hhc & Hv').
  destruct (IH x' y ElementNode d1 c pa1 pv1 nx1 l1 Hhc Hv')
    as (c2 & d2 & pa2 & pv2 & nx2 & l2 & Hat & Hh2).
  exists c2, d2, pa2, pv2, nx2, l2. split.
  - intros fuel Hfuel. cbn [node_at].
    rewrite (ChildNodes_holds h _ a _ _ _ _ fuel Hh Hfuel).
    cbn [kids_of]. cbn. rewrite Hgo. cbn. apply Hat, Hfuel.
  - destruct p; exact Hh2.
Qed.

(** C3. A null produces no node and no error, wherever it stands:
    called on [nil], [parseValue] returns at once with the store as it
    was, whatever [top] and the level; a parse of a value returns its Document node and no error, and at every
    position of the value that holds a null (the document itself, an
    element of an array or a member of an object, at any depth) the node
    of that position, the Document node or the Element of the array
    position or of the key, has no child: both child pointers are nil and
    [ChildNodes] is empty.  A null document leaves the Document node alone
    in the block. *)
Theorem C3_null_produces_no_node b v (h0 : list Node) :
  json_Unmarshal b = (v, None) -> fits 1 v ->
  (forall top lvl (h1 : list Node),
      parseValue JNull top lvl h1 = Some (tt, h1)) /\
  exists h,
    parse b h0 = Some ((Some (length h0), None), h) /\
    (v = JNull -> h = h0 ++ [Node_lit DocumentNode EmptyString 0]) /\
    forall p, value_at v p = Some JNull ->
      exists c nc,
        (forall k, node_at (2 * length h + k) h (length h0) p = Some c) /\
        h !! c = Some nc /\
        Type_ nc = match p with [] => DocumentNode | _ => ElementNode end /\
        FirstChild nc = None /\ LastChild nc = None /\
        (forall k, ChildNodes k h c = Some []).
Proof.
  intros Hdec Hfit. split; [reflexivity | ].
  destruct (parse_holds b v h0 Hdec Hfit) as (h & Hrun & Hh & Hlen & _).
  exists h. split; [exact Hrun | ]. split.
  { intros ->. rewrite (parse_run b JNull h0 Hdec Hfit) in Hrun.
    injection Hrun as <-. reflexivity. }
  intros p Hp. unfold document in Hh.
  destruct (node_at_holds h p v JNull _ _ _ _ _ _ _ Hh Hp)
    as (c & d' & pa' & pv' & nx' & l' & Hat & Hc).
  pose proof (holds_root _ _ _ _ _ _ _ Hc) as Hroot.
  eexists c, _.
  split; [intros k; apply Hat; lia | ].
  split; [exact Hroot | ]. split; [reflexivity | ].
  split; [reflexivity | ]. split; [reflexivity | ].
  intros k. unfold ChildNodes. rewrite Hroot. destruct k; reflexivity.
Qed.

(** C4. After a parse the links agree with each other: every node of the
    document but the root has a parent, stands at exactly one place of
    the chain [ChildNodes] walks from that parent, and that chain runs
    from the parent's [FirstChild] to its [LastChild], with
    [NextSibling] and [PrevSibling] inverse of each other and every node
    of it pointing back to the parent. *)
Theorem C4_links_consistent b v (h0 : list Node) :
  json_Unmarshal b = (v, None) -> fits 1 v ->
  exists h,
    parse b h0 = Some ((Some (length h0), None), h) /\
    forall a, (length h0 < a < length h)%nat ->
      exists na q cs,
        h !! a = Some na /\ Parent na = Some q /\
        (length h0 <= q < length h)%nat /\
        (forall k, ChildNodes (2 * length h + k) h q = Some cs) /\
        chain_ok h q cs /\
        exists i, cs !! i = Some a /\ forall j, cs !! j = Some a -> j = i.
Proof.
  intros Hdec Hfit.
  destruct (parse_holds b v h0 Hdec Hfit) as (h & Hrun & Hh & Hlen & _).
  exists h. split; [exact Hrun | ]. intros a Ha.
  destruct (holds_parent (fun _ => True) (fun _ _ kids _ =>
               proj2 (Forall_forall _ kids) (fun _ _ => I))
              _ h _ _ _ _ _ Hh I a)
    as (q & tq & pa & pv & nx & l & Hq & Hhq & _ & Hin); [lia | ].
  pose proof (chain_ok_holds h tq q pa pv nx l Hhq) as Hchain.
  apply list_elem_of_lookup in Hin. destruct Hin as [i Hi].
  destruct Hchain as (nq & Hnq & Hfc & Hlc & Hnd & Hnodes).
  destruct (Hnodes i a Hi) as (na & Hna & Hpar & Hnext & Hprev).
  exists na, q, (roots (kids_of tq) (S q)).
  split; [exact Hna | ]. split; [exact Hpar | ].
  split; [apply lookup_lt_Some in Hnq; lia | ].
  split; [intros k; eapply ChildNodes_holds; eauto; lia | ].
  split; [exists nq; auto | ].
  exists i. split; [exact Hi | ].
  intros j Hj. eapply NoDup_lookup; eauto.
Qed.

(** C6. The inner text of a node of a document is the data of the Text
    nodes of the subtree below it, in document order, with nothing in
    between; for a Text node that is its own data.  The function returns
    on every node, and the store is not one of its results. *)
Theorem C6_InnerText_is_text_of_subtree b v (h0 : list Node) :
  json_Unmarshal b = (v, None) -> fits 1 v ->
  exists h,
    parse b h0 = Some ((Some (length h0), None), h) /\
    forall n, (length h0 <= n < length h)%nat ->
      exists node t,
        h !! n = Some node /\
        (forall k, tree_at (2 * length h + k) h n = Some t) /\
        (forall k, InnerText (2 * length h + k) h n = Some (text_of t)) /\
        (Type_ node = TextNode -> text_of t = Data node).
Proof.
  intros Hdec Hfit.
  destruct (parse_holds b v h0 Hdec Hfit) as (h & Hrun & Hh & Hlen & _).
  exists h. split; [exact Hrun | ]. intros n Hn.
  destruct (holds_sub well_shaped well_shaped_kids _ h _ _ _ _ _ Hh
              (well_shaped_document v) n)
    as (t & pa & pv & nx & l & Ht & Hl & Hd); [lia | ].
  exists (root_node t n pa pv nx l), t.
  split; [apply holds_root, Ht | ].
  split; [intros k; eapply InnerText_holds; eauto | ].
  split; [intros k; eapply InnerText_holds; eauto | ].
  destruct t as [ty d kids]. cbn [root_node Type_ Data]. intros ->.
  rewrite text_of_unfold.
  apply text_leaves_kids in Hl. destruct Hl as [_ Hk].
  rewrite (Hk eq_refl). cbn. apply append_nil_r.
Qed.


(** C8. A parsed document has one Document node, its root: the node
    [parse] returns has type Document, no name, no parent and no
    sibling, every other node of the block is an Element or a Text node,
    and the store that was there before is as it was. *)
Theorem C8_single_document_root b v (h0 : list Node) :
  json_Unmarshal b = (v, None) -> fits 1 v ->
  exists h doc,
    parse b h0 = Some ((Some (length h0), None), h) /\
    h !! length h0 = Some doc /\
    Type_ doc = DocumentNode /\ Data doc = EmptyString /\
    Parent doc = None /\ PrevSibling doc = None /\
    NextSibling doc = None /\
    (forall a na, (length h0 < a)%nat -> h !! a = Some na ->
                  Type_ na <> DocumentNode) /\
    (forall a, (a < length h0)%nat -> h !! a = h0 !! a).
Proof.
  intros Hdec Hfit.
  destruct (parse_holds b v h0 Hdec Hfit) as (h & Hrun & Hh & Hlen & Hold).
  exists h, (root_node (document v) (length h0) None None None 0).
  split; [exact Hrun | ]. split; [apply holds_root, Hh | ].
  do 5 (split; [reflexivity | ]). split; [ | exact Hold].
  intros a na Ha Hna.
  assert (Hlt : (a < length h)%nat) by (eapply lookup_lt_Some; eauto).
  destruct (holds_parent well_shaped well_shaped_kids _ h _ _ _ _ _ Hh
              (well_shaped_document v) a)
    as (q & tq & pa & pv & nx & l & Hq & Hhq & [_ Hd] & Hin); [lia | ].
  apply list_elem_of_lookup in Hin. destruct Hin as [i Hi].
  apply holds_kids in Hhq.
  destruct (roots_holds _ h _ _ _ _ i a Hhq Hi) as (k & Hk & Hhk).
  apply holds_root in Hhk. rewrite Hhk in Hna. injection Hna as <-.
  rewrite forallb_forall in Hd.
  assert (Hkd : no_document k = true).
  { apply Hd. apply list_elem_of_In. eapply list_elem_of_lookup_2; eauto. }
  destruct k as [[ | | ] kd kk]; cbn in *; congruence.
Qed.

(** C9. [Parse] returns an error exactly when reading or decoding fails,
    and then it returns no node and leaves the store as it was; when
    both succeed it returns, with no error, the Document node it
    allocated. *)
Theorem C9_Parse_error_iff r (h0 : list Node) bytes rerr v derr :
  ioutil_ReadAll r = (bytes, rerr) ->
  json_Unmarshal bytes = (v, derr) ->
  (forall p e h,
      Parse r h0 = Some ((p, Some e), h) <->
      p = None /\ h = h0 /\
      (rerr = Some e \/ (rerr = None /\ derr = Some e))) /\
  (rerr = None -> derr = None ->
   exists h doc,
     Parse r h0 = Some ((Some (length h0), None), h) /\
     h !! length h0 = Some doc /\ Type_ doc = DocumentNode).
Proof.
  intros Hread Hdec. split.
  - intros p e h. unfold Parse, parse. rewrite Hread.
    destruct rerr as [e1 | ].
    { cbn. split.
      - intros H. injection H as <- <- <-. auto.
      - intros (-> & -> & [H | [H _]]); [ | discriminate].
        injection H as <-. reflexivity. }
    rewrite Hdec. destruct derr as [e2 | ].
    { cbn. split.
      - intros H. injection H as <- <- <-. auto.
      - intros (-> & -> & [H | [_ H]]); [discriminate | ].
        injection H as <-. reflexivity. }
    split.
    + rewrite bind_run. unfold new. rewrite bind_run.
      destruct (parseValue v (length h0) 1 _) as [[[] h1] | ];
        cbn; discriminate.
    + intros (_ & _ & [H | [_ H]]); discriminate.
  - intros -> ->.
    destruct (parse_total bytes v h0 Hdec) as (h & doc & Hrun & Hdoc).
    exists h, doc. split; [ | exact Hdoc].
    unfold Parse. rewrite Hread. exact Hrun.
Qed.

(** C10. An array yields one anonymous Element child per position, in
    order, also where the element is null: that child is there, without
    children. *)
Theorem C10_array_one_element_per_position (v : list value) top lvl
    (h : list Node) tn :
  h !! top = Some tn ->
  FirstChild tn = None -> LastChild tn = None ->
  level tn < lvl -> fits lvl (JArray v) ->
  exists h' cs,
    parseValue (JArray v) top lvl h = Some (tt, h') /\
    (forall k, ChildNodes (length h' + k) h' top = Some cs) /\
    length cs = length v /\
    Forall2 (fun c x => exists nc,
               h' !! c = Some nc /\ Type_ nc = ElementNode /\
               Data nc = EmptyString /\ Parent nc = Some top /\
               (x = JNull ->
                FirstChild nc = None /\ LastChild nc = None /\
                forall k, ChildNodes k h' c = Some []))
            cs v.
Proof.
  intros Ht Hfc Hlc Hlv Hfit.
  destruct (parseValue_children (JArray v) top lvl h tn)
    as (h' & Hrun & Hh & Hcs & Hchain); auto.
  exists h', (roots (build (JArray v)) (length h)).
  change (build (JArray v))
    with (map (fun a => T ElementNode EmptyString (build a)) v) in *.
  repeat split; auto.
  - rewrite length_roots, length_map. reflexivity.
  - apply roots_Forall2 in Hh.
    eapply Forall2_impl; [exact Hh | ].
    intros c x (pv & nx & Hc). apply holds_root in Hc.
    eexists. split; [exact Hc | ].
    split; [reflexivity | ]. split; [reflexivity | ].
    split; [reflexivity | ]. intros ->.
    split; [reflexivity | ]. split; [reflexivity | ].
    intros k. unfold ChildNodes. rewrite Hc. cbn.
    destruct k; reflexivity.
Qed.

(** ** [addNode] on any consistent chain *)

Lemma chain_append (h h' : list Node) q cs n :
  chain_ok h q cs -> q ∉ cs -> n ∉ cs -> q <> n ->
  (exists qn', h' !! q = Some qn' /\
               FirstChild qn' = head (cs ++ [n]) /\ LastChild qn' = Some n) ->
  (exists nn', h' !! n = Some nn' /\ Parent nn' = Some q /\
               NextSibling nn' = None /\ PrevSibling nn' = last cs) ->
  (forall t tnode, last cs = Some t -> h !! t = Some tnode ->
                   h' !! t = Some (set_NextSibling (Some n) tnode)) ->
  (forall a, a <> q -> a <> n -> last cs <> Some a -> h' !! a = h !! a) ->
  chain_ok h' q (cs ++ [n]).
Proof.
  intros (nq & Hq & Hfc & Hlc & Hnd & Hnodes) Hqcs Hncs Hqn
         (qn' & Hq' & Hfc' & Hlc') (nn' & Hn' & Hnp & Hnn & Hnpv) Hlast Hothers.
  exists qn'. split; [exact Hq' | ]. split; [exact Hfc' | ].
  split; [rewrite last_snoc; exact Hlc' | ].
  split.
  { apply NoDup_app. split; [exact Hnd | ]. split; [ | apply NoDup_singleton].
    intros x Hx Hxn. apply list_elem_of_singleton in Hxn. subst. auto. }
  intros i c Hc. apply lookup_app_Some in Hc.
  destruct Hc as [Hc | [Hlen Hc]].
  - destruct (Hnodes i c Hc) as (nc & Hnc & Hp & Hnx & Hpv).
    assert (Hi : (i < length cs)%nat) by (eapply lookup_lt_Some; eauto).
    assert (Hcin : c ∈ cs) by (eapply list_elem_of_lookup_2; eauto).
    assert (Hcq : c <> q) by (intros ->; auto).
    assert (Hcn : c <> n) by (intros ->; auto).
    assert (Hpv' : match i with
                   | O => None
                   | S j => (cs ++ [n]) !! j
                   end = PrevSibling nc).
    { rewrite Hpv. destruct i as [ | j]; [reflexivity | ].
      apply lookup_app_l. lia. }
    destruct (decide (last cs = Some c)) as [Hl | Hl].
    + exists (set_NextSibling (Some n) nc).
      split; [apply Hlast; assumption | ].
      split; [exact Hp | ]. split; [ | symmetry; exact Hpv'].
      rewrite last_lookup in Hl.
      assert (i = pred (length cs)) by (eapply NoDup_lookup; eauto).
      subst i. cbn [NextSibling set_NextSibling].
      rewrite lookup_app_r by lia.
      replace (S (pred (length cs)) - length cs)%nat with O by lia.
      reflexivity.
    + exists nc. split; [rewrite Hothers; auto | ].
      split; [exact Hp | ]. split; [ | symmetry; exact Hpv'].
      rewrite Hnx.
      destruct (Nat.lt_ge_cases (S i) (length cs)) as [Hlt | Hge].
      * symmetry. apply lookup_app_l. exact Hlt.
      * exfalso. apply Hl. rewrite last_lookup.
        replace (pred (length cs)) with i by lia. exact Hc.
  - apply list_lookup_singleton_Some in Hc. destruct Hc as [Hi <-].
    assert (i = length cs) by lia. subst i.
    exists nn'. split; [exact Hn' | ]. split; [exact Hnp | ].
    split.
    + rewrite Hnn. symmetry. apply lookup_ge_None.
      rewrite length_app. simpl. lia.
    + rewrite Hnpv, last_lookup.
      destruct (length cs) as [ | j] eqn:Hj.
      * destruct cs; [reflexivity | discriminate].
      * simpl. symmetry. apply lookup_app_l. lia.
Qed.

(** X1. The child branch of [addNode]: when [n] has a greater level than
    [top], is not yet linked and the children of [top] form a consistent
    chain, [addNode] returns, [n] is the new end of that chain, which is
    consistent again, and no node but [top], [n] and the old last child is
    written. *)
Theorem X1_addNode_appends_child (h : list Node) top n tn nn cs :
  h !! top = Some tn -> h !! n = Some nn ->
  chain_ok h top cs -> top ∉ cs -> n ∉ cs -> top <> n ->
  level tn < level nn ->
  NextSibling nn = None -> PrevSibling nn = None ->
  exists h',
    addNode top n h = Some (tt, h') /\
    chain_ok h' top (cs ++ [n]) /\
    length h' = length h /\
    (forall a, a <> top -> a <> n -> last cs <> Some a ->
               h' !! a = h !! a).
Proof.
  intros Ht Hn Hchain Htcs Hncs Hne Hlv Hnn Hnp.
  pose proof Hchain as (nq & Hq & Hfc & Hlc & Hnd & Hnodes).
  rewrite Ht in Hq. injection Hq as <-.
  assert (Hlt : (top < length h)%nat) by (eapply lookup_lt_Some; eauto).
  assert (Hln : (n < length h)%nat) by (eapply lookup_lt_Some; eauto).
  destruct (last cs) as [t | ] eqn:Hlast.
  - (* [top] has children: [n] goes after the last one *)
    assert (Htin : t ∈ cs) by (apply last_Some_elem_of; exact Hlast).
    assert (Htt : t <> top) by (intros ->; auto).
    assert (Htn : t <> n) by (intros ->; auto).
    apply list_elem_of_lookup in Htin. destruct Htin as [i Hi].
    destruct (Hnodes i t Hi) as (tnode & Htnode & _).
    destruct cs as [ | f cs']; [discriminate | ]. simpl in Hfc.
    eexists. split.
    { eapply (addNode_next top n t h tn nn tnode f); eauto. }
    split; [ | split].
    + eapply chain_append; eauto.
      * eexists. split.
        { apply list_lookup_insert_eq. rewrite !length_insert. lia. }
        split; [exact Hfc | reflexivity].
      * eexists. split.
        { rewrite list_lookup_insert_ne by congruence.
          apply list_lookup_insert_eq. rewrite length_insert. lia. }
        rewrite Hlast. simpl. auto.
      * intros t' tnode' Ht' Htnode'. rewrite Hlast in Ht'.
        injection Ht' as <-.
        rewrite Htnode in Htnode'. injection Htnode' as <-.
        rewrite !list_lookup_insert_ne by congruence.
        apply list_lookup_insert_eq.
        eapply lookup_lt_Some; eauto.
      * intros a Ha1 Ha2 Ha3. rewrite Hlast in Ha3.
        rewrite !list_lookup_insert_ne by congruence. reflexivity.
    + rewrite !length_insert. reflexivity.
    + intros a Ha1 Ha2 Ha3.
      rewrite !list_lookup_insert_ne by congruence. reflexivity.
  - (* [top] has no child yet *)
    assert (cs = []) by (destruct cs using rev_ind;
                         [reflexivity | rewrite last_snoc in Hlast; discriminate]).
    subst cs. simpl in Hfc.
    eexists. split.
    { eapply (addNode_first top n h tn nn); eauto. }
    split; [ | split].
    + eapply chain_append; eauto.
      * eexists. split.
        { apply list_lookup_insert_eq. rewrite !length_insert. lia. }
        split; reflexivity.
      * eexists. split.
        { rewrite list_lookup_insert_ne by congruence.
          apply list_lookup_insert_eq. lia. }
        simpl. auto.
      * intros t' tnode' Ht'. discriminate.
      * intros a Ha1 Ha2 _.
        rewrite !list_lookup_insert_ne by congruence. reflexivity.
    + rewrite !length_insert. reflexivity.
    + intros a Ha1 Ha2 _.
      rewrite !list_lookup_insert_ne by congruence. reflexivity.
Qed.

Lemma addNode_sibling top n (h : list Node) tn nn :
  h !! top = Some tn -> h !! n = Some nn -> top <> n ->
  level nn = level tn ->
  addNode top n h =
    (match Parent tn with
     | Some _ => put (Parent tn) (set_LastChild (Some n))
     | None => mret tt
     end)
      (<[n := set_Parent (Parent tn) (set_PrevSibling (Some top) nn)]>
         (<[top := set_NextSibling (Some n) tn]> h)).
Proof.
  intros Ht Hn Hne Hlv.
  assert (Hlt : (top < length h)%nat) by (eapply lookup_lt_Some; eauto).
  assert (Hln : (n < length h)%nat) by (eapply lookup_lt_Some; eauto).
  unfold addNode. rewrite !bind_run. unfold get at 1. rewrite Hn.
  rewrite !bind_run. unfold get at 1. rewrite Ht.
  rewrite Hlv, Z.eqb_refl.
  rewrite !bind_run. unfold put at 1. rewrite Ht.
  rewrite !bind_run. unfold put at 1.
  rewrite list_lookup_insert_ne by congruence. rewrite Hn.
  rewrite !bind_run. unfold get at 1.
  rewrite list_lookup_insert_ne by congruence.
  rewrite list_lookup_insert_eq by exact Hlt.
  cbn [Parent set_NextSibling].
  rewrite !bind_run. unfold put at 1.
  rewrite list_lookup_insert_eq by (rewrite length_insert; exact Hln).
  rewrite list_insert_insert_eq.
  rewrite !bind_run. unfold get at 1.
  rewrite list_lookup_insert_ne by congruence.
  rewrite list_lookup_insert_eq by exact Hlt.
  cbn [Parent set_NextSibling]. reflexivity.
Qed.

(** X2. The sibling branch of [addNode]: when [n] has the level of [top],
    [top] is the last child of its parent [p] and the children of [p]
    form a consistent chain, [addNode] returns and [n] is the new end of
    the chain of [p], which is consistent again; no node but [p], [top]
    and [n] is written. *)
Theorem X2_addNode_appends_sibling (h : list Node) top n p tn nn cs :
  h !! top = Some tn -> h !! n = Some nn ->
  Parent tn = Some p ->
  chain_ok h p cs -> last cs = Some top ->
  p ∉ cs -> n ∉ cs -> p <> n ->
  level nn = level tn -> NextSibling nn = None ->
  exists h',
    addNode top n h = Some (tt, h') /\
    chain_ok h' p (cs ++ [n]) /\
    length h' = length h /\
    (forall a, a <> p -> a <> n -> a <> top -> h' !! a = h !! a).
Proof.
  intros Ht Hn Hp Hchain Hlast Hpcs Hncs Hpn Hlv Hnn.
  pose proof Hchain as (pn & Hpnode & Hfc & Hlc & Hnd & Hnodes).
  assert (Htin : top ∈ cs) by (apply last_Some_elem_of; exact Hlast).
  assert (Htp : top <> p) by (intros ->; auto).
  assert (Htn : top <> n) by (intros ->; auto).
  assert (Hlt : (top < length h)%nat) by (eapply lookup_lt_Some; eauto).
  assert (Hln : (n < length h)%nat) by (eapply lookup_lt_Some; eauto).
  assert (Hlp : (p < length h)%nat) by (eapply lookup_lt_Some; eauto).
  rewrite (addNode_sibling top n h tn nn Ht Hn Htn Hlv). rewrite Hp.
  unfold put. rewrite !list_lookup_insert_ne by congruence. rewrite Hpnode.
  eexists. split; [reflexivity | ]. split; [ | split].
  - eapply chain_append; eauto.
    + eexists. split.
      { apply list_lookup_insert_eq. rewrite !length_insert. exact Hlp. }
      split; [ | reflexivity].
      cbn [FirstChild set_LastChild]. rewrite Hfc.
      destruct cs; [discriminate | reflexivity].
    + eexists. split.
      { rewrite list_lookup_insert_ne by congruence.
        apply list_lookup_insert_eq. rewrite length_insert. exact Hln. }
      rewrite Hlast. simpl. auto.
    + intros t tnode Hl Htnode. rewrite Hlast in Hl. injection Hl as <-.
      rewrite Ht in Htnode. injection Htnode as <-.
      rewrite !list_lookup_insert_ne by congruence.
      apply list_lookup_insert_eq. exact Hlt.
    + intros a Ha1 Ha2 Ha3. rewrite Hlast in Ha3.
      rewrite !list_lookup_insert_ne by congruence. reflexivity.
  - rewrite !length_insert. reflexivity.
  - intros a Ha1 Ha2 Ha3.
    rewrite !list_lookup_insert_ne by congruence. reflexivity.
Qed.

(** ** More on what [parseValue] and [parse] leave in the store *)

Lemma node_count_index v key :
  (fix index (m : list (string * value)) : nat :=
     match m with
     | [] => O
     | (k, vv) :: m' =>
         if String.eqb k key then node_count vv else index m'
     end) v = node_count (map_index v key).
Proof.
  induction v as [ | [k x] v IHv]; simpl; [reflexivity | ].
  destruct (String.eqb k key); [reflexivity | exact IHv].
Qed.

Lemma sizes_build x : sizes (build x) = node_count x.
Proof.
  induction x as [ | b | f | s | v IH | v IH] using value_induction;
    try reflexivity.
  - change (build (JArray v))
      with (map (fun a => T ElementNode EmptyString (build a)) v).
    cbn [node_count].
    induction IH as [ | x v Hx _ IHv]; [reflexivity | ].
    cbn [map sizes list_sum]. rewrite size_unfold, Hx, IHv. reflexivity.
  - rewrite build_object. cbn [node_count].
    assert (Hidx : forall key,
               sizes (build (map_index v key))
               = node_count (map_index v key)).
    { intros key. clear -IH.
      induction IH as [ | [k y] v Hy _ IHv]; [reflexivity | ].
      cbn [map_index]. destruct (String.eqb k key); [exact Hy | exact IHv]. }
    induction (sort_Strings (map_keys v)) as [ | key keys IHk];
      [reflexivity | ].
    cbn [map sizes list_sum].
    rewrite size_unfold, Hidx, IHk, node_count_index. reflexivity.
Qed.

(** X3. Of the store it is given, [parseValue] writes only the two child
    pointers of [top]: every other node is as it was, and [top] keeps its
    parent, its siblings, its type, its data and its level. *)
Theorem X3_parseValue_writes_only_top x top lvl (h : list Node) tn :
  h !! top = Some tn ->
  FirstChild tn = None -> LastChild tn = None ->
  level tn < lvl -> fits lvl x ->
  exists h' tn',
    parseValue x top lvl h = Some (tt, h') /\
    (forall a, (a < length h)%nat -> a <> top -> h' !! a = h !! a) /\
    h' !! top = Some tn' /\
    Parent tn' = Parent tn /\ PrevSibling tn' = PrevSibling tn /\
    NextSibling tn' = NextSibling tn /\ Type_ tn' = Type_ tn /\
    Data tn' = Data tn /\ level tn' = level tn.
Proof.
  intros Ht Hfc Hlc Hlv Hfit.
  assert (Htop : (top < length h)%nat) by (eapply lookup_lt_Some; eauto).
  eexists. exists (set_children (build x) (length h) tn).
  split; [apply parseValue_correct; eauto | ].
  split.
  - intros a Ha Hne. rewrite lookup_app_l by (rewrite length_insert; lia).
    apply list_lookup_insert_ne. congruence.
  - split; [ | repeat split].
    rewrite lookup_app_l by (rewrite length_insert; lia).
    apply list_lookup_insert_eq. lia.
Qed.

(** X4. [parseValue] dereferences no nil pointer, whatever the value and
    whatever the levels: on a store whose nodes from [base] on point to
    one another and have a last child when they have a first, it returns,
    the store it leaves is such a store again, and every node that was
    there is still there with its type. *)
Theorem X4_parseValue_returns x base top lvl (h : list Node) :
  store_inv base h -> (base <= top < length h)%nat ->
  exists h',
    parseValue x top lvl h = Some (tt, h') /\
    store_inv base h' /\ frame h h' /\ (length h <= length h')%nat.
Proof.
  intros Hinv Htop.
  destruct (parseValue_total x base top lvl h Hinv Htop)
    as (h' & Hrun & Hinv' & Hf).
  exists h'. split; [exact Hrun | ]. split; [exact Hinv' | ].
  split; [exact Hf | ].
  destruct (Nat.le_gt_cases (length h) (length h')) as [Hle | Hgt];
    [exact Hle | ].
  exfalso.
  assert (Hlt : (length h' < length h)%nat) by lia.
  apply (frame_length h h' (length h')) in Hlt; [lia | exact Hf].
Qed.

(** X5. Reading the store back gives the tree of the value: after a
    parse, [tree_at] on the node returned is the Document node over
    [build v], the tree [parseValue] is to add for [v]. *)
Theorem X5_store_holds_tree_of_value b v (h0 : list Node) :
  json_Unmarshal b = (v, None) -> fits 1 v ->
  exists h,
    parse b h0 = Some ((Some (length h0), None), h) /\
    forall k, tree_at (2 * length h + k) h (length h0)
              = Some (T DocumentNode EmptyString (build v)).
Proof.
  intros Hdec Hfit.
  destruct (parse_holds b v h0 Hdec Hfit) as (h & Hrun & Hh & Hlen & _).
  exists h. split; [exact Hrun | ]. intros k.
  pose proof (holds_length _ _ _ _ _ _ _ Hh) as Hle.
  unfold document in *.
  eapply tree_at_holds; [exact Hh | lia].
Qed.

(** X6. A parse allocates the Document node and one node per array
    position, per object key and per scalar, none for a null:
    [1 + node_count v] nodes in all. *)
Theorem X6_parse_allocates_node_count b v (h0 : list Node) :
  json_Unmarshal b = (v, None) -> fits 1 v ->
  exists h,
    parse b h0 = Some ((Some (length h0), None), h) /\
    length h = (length h0 + 1 + node_count v)%nat.
Proof.
  intros Hdec Hfit.
  destruct (parse_holds b v h0 Hdec Hfit) as (h & Hrun & _ & Hlen & _).
  exists h. split; [exact Hrun | ].
  rewrite Hlen. unfold document. rewrite size_unfold, sizes_build. lia.
Qed.

(** X7. The inner text of the node a parse returns is the canonical text
    of the whole value: the renderings of its scalars in document order,
    the members of an object by ascending key. *)
Theorem X7_InnerText_of_document b v (h0 : list Node) :
  json_Unmarshal b = (v, None) -> fits 1 v ->
  exists h,
    parse b h0 = Some ((Some (length h0), None), h) /\
    forall k, InnerText (2 * length h + k) h (length h0)
              = Some (canonical_text v).
Proof.
  intros Hdec Hfit.
  destruct (parse_holds b v h0 Hdec Hfit) as (h & Hrun & Hh & _ & _).
  exists h. split; [exact Hrun | ]. intros k.
  destruct (build_shape v) as (Hl & _ & Htxt).
  destruct (InnerText_holds h _ _ _ _ _ _ Hh) with (k := k) as [_ Hin].
  { exact Hl. }
  rewrite Hin. unfold document. rewrite text_of_unfold, Htxt. reflexivity.
Qed.

(** X8. The members of an object are found by name: for every entry
    [(k, x)] of the map the root has exactly one child whose data is [k],
    it is an Element, and its inner text is the canonical text of [x]. *)
Theorem X8_object_member_by_name b (m : list (string * value))
    (h0 : list Node) :
  json_Unmarshal b = (JObject m, None) -> fits 1 (JObject m) -> map_ok m ->
  exists h cs,
    parse b h0 = Some ((Some (length h0), None), h) /\
    (forall j, ChildNodes (2 * length h + j) h (length h0) = Some cs) /\
    forall k x, In (k, x) m ->
      exists c nc,
        c ∈ cs /\ h !! c = Some nc /\
        Type_ nc = ElementNode /\ Data nc = k /\
        (forall j, InnerText (2 * length h + j) h c
                   = Some (canonical_text x)) /\
        (forall c' nc', c' ∈ cs -> h !! c' = Some nc' -> Data nc' = k ->
                        c' = c).
Proof.
  intros Hdec Hfit Hok.
  destruct (parse_holds b (JObject m) h0 Hdec Hfit)
    as (h & Hrun & Hh & Hlen & _).
  exists h, (roots (kids_of (document (JObject m))) (S (length h0))).
  split; [exact Hrun | ]. split.
  { intros j. eapply ChildNodes_holds; eauto. lia. }
  apply holds_kids in Hh. unfold document in Hh |- *. cbn [kids_of] in *.
  rewrite build_object in *.
  set (keys := sort_Strings (map_keys m)) in *.
  set (mk := fun key => T ElementNode key (build (map_index m key))) in *.
  apply roots_Forall2 in Hh.
  assert (Hnd : NoDup keys).
  { unfold keys. rewrite sort_Strings_perm. exact Hok. }
  intros k x Hin.
  assert (Hk : k ∈ keys).
  { unfold keys. rewrite sort_Strings_perm. apply list_elem_of_In.
    apply (in_map fst) in Hin. exact Hin. }
  apply list_elem_of_lookup in Hk. destruct Hk as [i Hi].
  destruct (Forall2_lookup_r _ _ _ _ _ Hh Hi) as (c & Hc & pv & nx & Hhc).
  exists c, (root_node (mk k) c (Some (length h0)) pv nx (GoInt.add 0 1)).
  split; [eapply list_elem_of_lookup_2; eauto | ].
  split; [apply holds_root, Hhc | ].
  split; [reflexivity | ]. split; [reflexivity | ]. split.
  - intros j.
    destruct (build_shape (map_index m k)) as (Hl & _ & Htxt).
    destruct (InnerText_holds h _ c _ _ _ _ Hhc) with (k := j) as [_ Hinn];
      [exact Hl | ].
    rewrite Hinn. unfold mk. rewrite text_of_unfold, Htxt.
    rewrite (map_index_In m k Hok x Hin). reflexivity.
  - intros c' nc' Hc' Hnc' Hdata.
    apply list_elem_of_lookup in Hc'. destruct Hc' as [i' Hi'].
    destruct (Forall2_lookup_l _ _ _ _ _ Hh Hi')
      as (k' & Hk' & pv' & nx' & Hhc').
    apply holds_root in Hhc'. rewrite Hhc' in Hnc'. injection Hnc' as <-.
    cbn in Hdata. subst k'.
    assert (i' = i) by (eapply NoDup_lookup; eauto). subst i'.
    congruence.
Qed.

(** X9. A Text node of a parsed document never has children: both child
    pointers are nil and [ChildNodes] is empty, with any number of
    steps. *)
Theorem X9_text_nodes_are_leaves b v (h0 : list Node) :
  json_Unmarshal b = (v, None) -> fits 1 v ->
  exists h,
    parse b h0 = Some ((Some (length h0), None), h) /\
    forall a na, (length h0 <= a)%nat -> h !! a = Some na ->
      Type_ na = TextNode ->
      FirstChild na = None /\ LastChild na = None /\
      forall k, ChildNodes k h a = Some [].
Proof.
  intros Hdec Hfit.
  destruct (parse_holds b v h0 Hdec Hfit) as (h & Hrun & Hh & Hlen & _).
  exists h. split; [exact Hrun | ]. intros a na Ha Hna Hty.
  assert (Hlt : (a < length h)%nat) by (eapply lookup_lt_Some; eauto).
  destruct (holds_sub well_shaped well_shaped_kids _ h _ _ _ _ _ Hh
              (well_shaped_document v) a)
    as (t & pa & pv & nx & l & Ht & Hl & _); [lia | ].
  apply holds_root in Ht. rewrite Ht in Hna. injection Hna as <-.
  destruct t as [ty d kids]. cbn in Hty. subst ty.
  apply text_leaves_kids in Hl. destruct Hl as [_ Hk].
  rewrite (Hk eq_refl) in *.
  split; [reflexivity | ]. split; [reflexivity | ].
  intros k. unfold ChildNodes. rewrite Ht. destruct k; reflexivity.
Qed.

Lemma roots_increasing ks :
  forall start i c s,
    roots ks start !! i = Some c -> roots ks start !! S i = Some s ->
    (c < s)%nat.
Proof.
  induction ks as [ | k ks IHks]; intros start i c s Hc Hs;
    [discriminate | ].
  destruct i as [ | i]; simpl in Hc, Hs.
  - injection Hc as <-. pose proof (size_pos k).
    assert (Hin : s ∈ roots ks (start + size k))
      by (eapply list_elem_of_lookup_2; eauto).
    apply roots_range in Hin. lia.
  - eapply IHks; eauto.
Qed.

(** X10. The level of a node is one more, in [int], than the level of its
    parent, and the Document node has level 0: the levels count the depth
    in the tree. *)
Theorem X10_level_is_parent_level_plus_one b v (h0 : list Node) :
  json_Unmarshal b = (v, None) -> fits 1 v ->
  exists h doc,
    parse b h0 = Some ((Some (length h0), None), h) /\
    h !! length h0 = Some doc /\ level doc = 0 /\
    forall a na, (length h0 < a)%nat -> h !! a = Some na ->
      exists q nq,
        Parent na = Some q /\ h !! q = Some nq /\
        level na = GoInt.add (level nq) 1.
Proof.
  intros Hdec Hfit.
  destruct (parse_holds b v h0 Hdec Hfit) as (h & Hrun & Hh & Hlen & _).
  exists h, (root_node (document v) (length h0) None None None 0).
  split; [exact Hrun | ]. split; [apply holds_root, Hh | ].
  split; [reflexivity | ]. intros a na Ha Hna.
  assert (Hlt : (a < length h)%nat) by (eapply lookup_lt_Some; eauto).
  destruct (holds_parent (fun _ => True) (fun _ _ kids _ =>
               proj2 (Forall_forall _ kids) (fun _ _ => I))
              _ h _ _ _ _ _ Hh I a)
    as (q & tq & pa & pv & nx & l & Hq & Hhq & _ & Hin); [lia | ].
  apply list_elem_of_lookup in Hin. destruct Hin as [i Hi].
  pose proof (holds_root _ _ _ _ _ _ _ Hhq) as Hnq.
  apply holds_kids in Hhq.
  destruct (roots_holds _ h _ _ _ _ i a Hhq Hi) as (k & Hk & Hhk).
  apply holds_root in Hhk. rewrite Hhk in Hna. injection Hna as <-.
  exists q, (root_node tq q pa pv nx l).
  split; [destruct k; reflexivity | ]. split; [exact Hnq | ].
  destruct k, tq. reflexivity.
Qed.

(** X11. Addresses follow document order, so the links cannot form a
    cycle: the parent of a node was allocated before it, its first child
    right after it, and its next sibling later. *)
Theorem X11_links_follow_allocation_order b v (h0 : list Node) :
  json_Unmarshal b = (v, None) -> fits 1 v ->
  exists h,
    parse b h0 = Some ((Some (length h0), None), h) /\
    forall a na, (length h0 <= a)%nat -> h !! a = Some na ->
      (forall q, Parent na = Some q -> (length h0 <= q < a)%nat) /\
      (forall f, FirstChild na = Some f -> f = S a) /\
      (forall l, LastChild na = Some l -> (a < l < length h)%nat) /\
      (forall s, NextSibling na = Some s -> (a < s < length h)%nat) /\
      (forall p, PrevSibling na = Some p -> (length h0 < p < a)%nat).
Proof.
  intros Hdec Hfit.
  destruct (parse_holds b v h0 Hdec Hfit) as (h & Hrun & Hh & Hlen & _).
  exists h. split; [exact Hrun | ]. intros a na Ha Hna.
  assert (Hlt : (a < length h)%nat) by (eapply lookup_lt_Some; eauto).
  (* the children of [a] *)
  assert (Hkids : (forall f, FirstChild na = Some f -> f = S a) /\
                  (forall l, LastChild na = Some l ->
                             (a < l < length h)%nat)).
  { destruct (holds_sub (fun _ => True) (fun _ _ kids _ =>
                 proj2 (Forall_forall _ kids) (fun _ _ => I))
                _ h _ _ _ _ _ Hh I a)
      as (t & pa & pv & nx & l & Ht & _); [lia | ].
    pose proof (holds_root _ _ _ _ _ _ _ Ht) as Hroot.
    rewrite Hroot in Hna. injection Hna as <-.
    apply holds_kids in Ht.
    pose proof (holds_forest_length _ _ _ _ _ _ Ht) as Hfl.
    destruct t as [ty d kids]. cbn [root_node FirstChild LastChild kids_of] in *.
    split.
    - intros f Hf. destruct kids; [discriminate | ]. simpl in Hf. congruence.
    - intros l0 Hl0. rewrite <- last_roots in Hl0.
      apply last_Some_elem_of, roots_range in Hl0. lia. }
  destruct Hkids as [Hf Hl].
  destruct (Nat.eq_dec a (length h0)) as [-> | Hne].
  { (* the root *)
    pose proof (holds_root _ _ _ _ _ _ _ Hh) as Hroot.
    rewrite Hroot in Hna.
    assert (Hna' : na = root_node (document v) (length h0) None None None 0)
      by congruence.
    subst na.
    split; [intros q Hq; discriminate Hq | ].
    split; [exact Hf | ]. split; [exact Hl | ].
    split; intros s Hs; discriminate Hs. }
  destruct (holds_parent (fun _ => True) (fun _ _ kids _ =>
               proj2 (Forall_forall _ kids) (fun _ _ => I))
              _ h _ _ _ _ _ Hh I a)
    as (q & tq & pa & pv & nx & l & Hq & Hhq & _ & Hin); [lia | ].
  pose proof (roots_range _ _ _ Hin) as Hrange.
  apply list_elem_of_lookup in Hin. destruct Hin as [i Hi].
  apply holds_kids in Hhq.
  pose proof (holds_forest_length _ _ _ _ _ _ Hhq) as Hfl.
  destruct (roots_holds _ h _ _ _ _ i a Hhq Hi) as (k & Hk & Hhk).
  apply holds_root in Hhk. rewrite Hhk in Hna.
  apply (inj Some) in Hna. subst na.
  destruct k as [kty kd kk].
  cbn [root_node Parent NextSibling PrevSibling].
  split; [intros q' Hq'; injection Hq' as <-; lia | ].
  split; [exact Hf | ]. split; [exact Hl | ]. split.
  - intros s Hs. pose proof (roots_increasing _ _ _ _ _ Hi Hs).
    apply list_elem_of_lookup_2, roots_range in Hs. lia.
  - intros p Hp. destruct i as [ | j]; [discriminate | ].
    pose proof (roots_increasing _ _ _ _ _ Hp Hi).
    apply list_elem_of_lookup_2, roots_range in Hp. lia.
Qed.

Lemma build_nil_iff v :
  build v = [] <-> v = JNull \/ v = JArray [] \/ v = JObject [].
Proof.
  split.
  - destruct v as [ | b | f | s | l | m]; try discriminate; auto.
    + destruct l; [auto | discriminate].
    + rewrite build_object. intros H. apply map_eq_nil in H.
      assert (Hp : Permutation (map_keys m) []).
      { rewrite <- H. symmetry. apply sort_Strings_perm. }
      apply Permutation_nil_r in Hp.
      destruct m; [auto | discriminate].
  - intros [-> | [-> | ->]]; reflexivity.
Qed.

(** X12. The node a parse returns has no children exactly when the value
    is null, an empty array or an empty object; any other value gives it
    a first child. *)
Theorem X12_document_childless_iff_empty b v (h0 : list Node) :
  json_Unmarshal b = (v, None) -> fits 1 v ->
  exists h cs,
    parse b h0 = Some ((Some (length h0), None), h) /\
    (forall k, ChildNodes (2 * length h + k) h (length h0) = Some cs) /\
    (cs = [] <-> v = JNull \/ v = JArray [] \/ v = JObject []).
Proof.
  intros Hdec Hfit.
  destruct (parse_holds b v h0 Hdec Hfit) as (h & Hrun & Hh & Hlen & _).
  exists h, (roots (kids_of (document v)) (S (length h0))).
  split; [exact Hrun | ]. split.
  { intros k. eapply ChildNodes_holds; eauto. lia. }
  rewrite <- build_nil_iff. cbn [document kids_of].
  destruct (build v); simpl; split; intros H; auto; discriminate.
Qed.

(** X13. The inner text of a node that is not a Text node is the inner
    texts of its children, in the order of [ChildNodes], one after the
    other. *)
Theorem X13_InnerText_is_that_of_children b v (h0 : list Node) :
  json_Unmarshal b = (v, None) -> fits 1 v ->
  exists h,
    parse b h0 = Some ((Some (length h0), None), h) /\
    forall n node, (length h0 <= n)%nat -> h !! n = Some node ->
      Type_ node <> TextNode ->
      exists cs texts,
        (forall k, ChildNodes (2 * length h + k) h n = Some cs) /\
        Forall2 (fun c s =>
                   forall k, InnerText (2 * length h + k) h c = Some s)
                cs texts /\
        (forall k, InnerText (2 * length h + k) h n
                   = Some (concat_strings texts)).
Proof.
  intros Hdec Hfit.
  destruct (parse_holds b v h0 Hdec Hfit) as (h & Hrun & Hh & Hlen & _).
  exists h. split; [exact Hrun | ]. intros n node Hn Hnode Hty.
  assert (Hlt : (n < length h)%nat) by (eapply lookup_lt_Some; eauto).
  destruct (holds_sub well_shaped well_shaped_kids _ h _ _ _ _ _ Hh
              (well_shaped_document v) n)
    as (t & pa & pv & nx & l & Ht & Hws); [lia | ].
  pose proof (holds_root _ _ _ _ _ _ _ Ht) as Hroot.
  rewrite Hroot in Hnode. apply (inj Some) in Hnode. subst node.
  exists (roots (kids_of t) (S n)), (map text_of (kids_of t)).
  split; [intros k; eapply ChildNodes_holds; eauto; lia | ].
  destruct t as [ty d kids]. cbn [kids_of root_node Type_] in *.
  pose proof (well_shaped_kids _ _ _ Hws) as Hkids.
  split.
  - pose proof (holds_kids _ _ _ _ _ _ _ Ht) as Hf. cbn [kids_of] in Hf.
    apply Forall2_same_length_lookup_2.
    { rewrite length_roots, length_map. reflexivity. }
    intros i c s Hc Hs k.
    destruct (roots_holds _ h _ _ _ _ i c Hf Hc) as (kid & Hkid & Hhk).
    rewrite list_lookup_fmap, Hkid in Hs. injection Hs as <-.
    rewrite Forall_forall in Hkids.
    destruct (Hkids kid) as [Hl _];
      [eapply list_elem_of_lookup_2; eauto | ].
    eapply InnerText_holds; eauto.
  - intros k. destruct Hws as [Hl _].
    destruct (InnerText_holds h _ n _ _ _ _ Ht Hl k) as [_ Hin].
    rewrite Hin, text_of_unfold.
    destruct ty; try reflexivity. congruence.
Qed.

(** ** Reading a store that has grown *)

Lemma ChildNodes_loop_grow fuel :
  forall (h ext : list Node) nn a cs,
    ChildNodes_loop fuel h nn a = Some cs ->
    ChildNodes_loop fuel (h ++ ext) nn a = Some cs.
Proof.
  induction fuel as [ | fuel IH]; intros h ext [c | ] a cs H; simpl in *;
    try discriminate; auto.
  destruct (h !! c) as [cn | ] eqn:Hc; [ | discriminate].
  rewrite (lookup_app_l_Some _ _ _ _ Hc). simpl in *. auto.
Qed.

Lemma output_grow fuel (h ext : list Node) :
  (forall buf n s,
      output fuel h buf n = Some s ->
      output fuel (h ++ ext) buf n = Some s) /\
  (forall buf c s,
      output_children fuel h buf c = Some s ->
      output_children fuel (h ++ ext) buf c = Some s).
Proof.
  induction fuel as [ | fuel [IHt IHf]]; split.
  - discriminate.
  - intros buf [c | ] s H; [discriminate | exact H].
  - intros buf n s H. cbn [output] in *.
    destruct (h !! n) as [node | ] eqn:Hn; [ | discriminate].
    rewrite (lookup_app_l_Some _ _ _ _ Hn). simpl in *.
    destruct (NodeType_eqb (Type_ node) TextNode); auto.
  - intros buf [c | ] s H; [ | destruct fuel; exact H].
    cbn [output_children] in *.
    destruct (output fuel h buf c) as [buf' | ] eqn:Ho; [ | discriminate].
    rewrite (IHt _ _ _ Ho). simpl in *.
    destruct (h !! c) as [cn | ] eqn:Hc; [ | discriminate].
    rewrite (lookup_app_l_Some _ _ _ _ Hc). simpl in *. auto.
Qed.

Lemma outputXML_grow fuel (h ext : list Node) :
  (forall buf n s,
      outputXML fuel h buf n = Some s ->
      outputXML fuel (h ++ ext) buf n = Some s) /\
  (forall buf c s,
      outputXML_children fuel h buf c = Some s ->
      outputXML_children fuel (h ++ ext) buf c = Some s).
Proof.
  induction fuel as [ | fuel [IHt IHf]]; split.
  - discriminate.
  - intros buf [c | ] s H; [discriminate | exact H].
  - intros buf n s H. cbn [outputXML] in *.
    destruct (h !! n) as [node | ] eqn:Hn; [ | discriminate].
    rewrite (lookup_app_l_Some _ _ _ _ Hn). simpl in *.
    destruct (Type_ node); auto.
    + destruct (outputXML_children fuel h buf (FirstChild node))
        as [b2 | ] eqn:Hc; [ | discriminate].
      rewrite (IHf _ _ _ Hc). exact H.
    + destruct (outputXML_children fuel h _ (FirstChild node))
        as [b2 | ] eqn:Hc; [ | discriminate].
      rewrite (IHf _ _ _ Hc). exact H.
  - intros buf [c | ] s H; [ | destruct fuel; exact H].
    cbn [outputXML_children] in *.
    destruct (outputXML fuel h buf c) as [buf' | ] eqn:Ho; [ | discriminate].
    rewrite (IHt _ _ _ Ho). simpl in *.
    destruct (h !! c) as [cn | ] eqn:Hc; [ | discriminate].
    rewrite (lookup_app_l_Some _ _ _ _ Hc). simpl in *. auto.
Qed.

(** X14. A parse leaves the trees of the store alone: whatever
    [ChildNodes], [InnerText] and [OutputXML] returned on a node before
    the parse, they return after it. *)
Theorem X14_parse_keeps_earlier_trees b v (h0 : list Node) :
  json_Unmarshal b = (v, None) -> fits 1 v ->
  exists h,
    parse b h0 = Some ((Some (length h0), None), h) /\
    (forall fuel n cs,
        ChildNodes fuel h0 n = Some cs -> ChildNodes fuel h n = Some cs) /\
    (forall fuel n s,
        InnerText fuel h0 n = Some s -> InnerText fuel h n = Some s) /\
    (forall fuel n s,
        OutputXML fuel h0 n = Some s -> OutputXML fuel h n = Some s).
Proof.
  intros Hdec Hfit. eexists. split; [apply parse_run; eauto | ].
  split; [ | split].
  - intros fuel n cs. unfold ChildNodes.
    destruct (h0 !! n) as [node | ] eqn:Hn; [ | discriminate].
    rewrite (lookup_app_l_Some _ _ _ _ Hn). simpl.
    apply ChildNodes_loop_grow.
  - intros fuel n s. unfold InnerText. apply output_grow.
  - intros fuel n s. unfold OutputXML.
    destruct (h0 !! n) as [node | ] eqn:Hn; [ | discriminate].
    rewrite (lookup_app_l_Some _ _ _ _ Hn). simpl.
    apply outputXML_grow.
Qed.

(** X15. [LoadURL] returns an error exactly when the request, the reading
    of the body or the decoding fails, and then it returns no node and
    leaves the store as it was; a failed request is answered before the
    response is looked at, so a nil response with an error is no panic.
    When the request succeeds the result is that of [Parse] on the body
    of the response, and when the three succeed it is, with no error, the
    Document node built from the body.  [resp.Body] is read only after a
    request without error; on a nil response it panics then. *)
Theorem X15_LoadURL_error_iff {http_Response : Type}
    (http_Get : string -> option http_Response * option error)
    (Response_Body : http_Response -> io_Reader)
    url (h0 : list Node) resp gerr :
  http_Get url = (resp, gerr) ->
  (forall e, gerr = Some e ->
     LoadURL http_Get Response_Body url h0 = Some ((None, Some e), h0)) /\
  (gerr = None -> resp = None ->
     LoadURL http_Get Response_Body url h0 = None) /\
  (forall r, gerr = None -> resp = Some r ->
     LoadURL http_Get Response_Body url h0 = Parse (Response_Body r) h0) /\
  (forall p e h,
      LoadURL http_Get Response_Body url h0 = Some ((p, Some e), h) <->
      p = None /\ h = h0 /\
      (gerr = Some e \/
       exists r, gerr = None /\ resp = Some r /\
         (snd (ioutil_ReadAll (Response_Body r)) = Some e \/
          snd (ioutil_ReadAll (Response_Body r)) = None /\
          snd (json_Unmarshal (fst (ioutil_ReadAll (Response_Body r))))
          = Some e))) /\
  (forall r, gerr = None -> resp = Some r ->
     snd (ioutil_ReadAll (Response_Body r)) = None ->
     snd (json_Unmarshal (fst (ioutil_ReadAll (Response_Body r)))) = None ->
     exists h doc,
       LoadURL http_Get Response_Body url h0
       = Some ((Some (length h0), None), h) /\
       h !! length h0 = Some doc /\ Type_ doc = DocumentNode).
Proof.
  intros Hget.
  assert (Herr : forall e, gerr = Some e ->
            LoadURL http_Get Response_Body url h0
            = Some ((None, Some e), h0)).
  { intros e ->. unfold LoadURL. rewrite Hget. reflexivity. }
  assert (Hnil : gerr = None -> resp = None ->
            LoadURL http_Get Response_Body url h0 = None).
  { intros -> ->. unfold LoadURL. rewrite Hget. reflexivity. }
  assert (Hok : forall r, gerr = None -> resp = Some r ->
            LoadURL http_Get Response_Body url h0
            = Parse (Response_Body r) h0).
  { intros r -> ->. unfold LoadURL. rewrite Hget. reflexivity. }
  split; [exact Herr | ]. split; [exact Hnil | ]. split; [exact Hok | ].
  split.
  - intros p e h. destruct gerr as [e0 | ].
    { rewrite (Herr e0 eq_refl). split.
      - intros H. injection H as <- <- <-. auto.
      - intros (-> & -> & [H | (r & H & _)]); [ | discriminate H].
        injection H as <-. reflexivity. }
    destruct resp as [r | ].
    2:{ rewrite (Hnil eq_refl eq_refl). split; [discriminate | ].
        intros (_ & _ & [H | (r & _ & H & _)]); discriminate H. }
    rewrite (Hok r eq_refl eq_refl). unfold Parse, parse.
    destruct (ioutil_ReadAll (Response_Body r)) as [bytes rerr] eqn:Hread.
    cbn [fst snd].
    destruct rerr as [e1 | ].
    { cbn. split.
      - intros H. injection H as <- <- <-.
        split; [reflexivity | ]. split; [reflexivity | ].
        right. exists r. rewrite Hread. cbn. auto.
      - intros (-> & -> & [H | (r' & _ & Hr & H)]); [discriminate H | ].
        injection Hr as <-. rewrite Hread in H. cbn in H.
        destruct H as [H | [H _]]; [ | discriminate H].
        injection H as <-. reflexivity. }
    destruct (json_Unmarshal bytes) as [v derr] eqn:Hdec.
    destruct derr as [e2 | ].
    { cbn. split.
      - intros H. injection H as <- <- <-.
        split; [reflexivity | ]. split; [reflexivity | ].
        right. exists r. rewrite Hread. cbn. rewrite Hdec. cbn. auto.
      - intros (-> & -> & [H | (r' & _ & Hr & H)]); [discriminate H | ].
        injection Hr as <-. rewrite Hread in H. cbn in H.
        rewrite Hdec in H. cbn in H.
        destruct H as [H | [_ H]]; [discriminate H | ].
        injection H as <-. reflexivity. }
    split.
    + rewrite bind_run. unfold new. rewrite bind_run.
      destruct (parseValue v (length h0) 1 _) as [[[] h1] | ];
        cbn; discriminate.
    + intros (_ & _ & [H | (r' & _ & Hr & H)]); [discriminate H | ].
      injection Hr as <-. rewrite Hread in H. cbn in H.
      rewrite Hdec in H. cbn in H.
      destruct H as [H | [_ H]]; discriminate H.
  - intros r Hg Hr Hread Hdec.
    destruct (ioutil_ReadAll (Response_Body r)) as [bytes rerr] eqn:Eread.
    cbn [fst snd] in *. subst rerr.
    destruct (json_Unmarshal bytes) as [v derr] eqn:Edec.
    cbn [snd] in *. subst derr.
    destruct (parse_total bytes v h0 Edec) as (h & doc & Hrun & Hdoc).
    exists h, doc. split; [ | exact Hdoc].
    rewrite (Hok r Hg Hr). unfold Parse. rewrite Eread. exact Hrun.
Qed.

Lemma same_value_build :
  forall v v', same_value v v' -> build v = build v'.
Proof.
  fix IH 3. intros v v' H. destruct H as [ | b | f | s | l l' Hl | m m' Hk Hm].
  - reflexivity.
  - reflexivity.
  - reflexivity.
  - reflexivity.
  - change (map (fun a => T ElementNode EmptyString (build a)) l
            = map (fun a => T ElementNode EmptyString (build a)) l').
    induction Hl as [ | x y l l' Hxy _ IHl]; [reflexivity | ].
    cbn [map]. rewrite (IH x y Hxy), IHl. reflexivity.
  - rewrite !build_object.
    rewrite (sort_Strings_order (map_keys m) (map_keys m') Hk).
    apply map_ext. intros key. rewrite (IH _ _ (Hm key)). reflexivity.
Qed.

(** X16. The store does not depend on the order in which maps enumerate
    their entries, at any depth: two values that differ only in that
    order are parsed to the same store. *)
Theorem X16_iteration_order_is_forgotten b b' v v' (h0 : list Node) :
  json_Unmarshal b = (v, None) -> json_Unmarshal b' = (v', None) ->
  same_value v v' -> fits 1 v -> fits 1 v' ->
  exists h,
    parse b h0 = Some ((Some (length h0), None), h) /\
    parse b' h0 = Some ((Some (length h0), None), h).
Proof.
  intros Hdec Hdec' Hsame Hfit Hfit'. eexists.
  split; [apply parse_run; eauto | ].
  rewrite (parse_run b' v' h0 Hdec' Hfit'). unfold document.
  rewrite (same_value_build v v' Hsame). reflexivity.
Qed.

Lemma output_appends fuel (h : list Node) :
  (forall buf n s,
      output fuel h buf n = Some s ->
      exists w, s = (buf ++ w)%string /\
                forall buf', output fuel h buf' n = Some (buf' ++ w)%string)
  /\
  (forall buf c s,
      output_children fuel h buf c = Some s ->
      exists w, s = (buf ++ w)%string /\
                forall buf', output_children fuel h buf' c
                             = Some (buf' ++ w)%string).
Proof.
  induction fuel as [ | fuel [IHt IHf]]; split.
  - discriminate.
  - intros buf [c | ] s H; [discriminate | ]. injection H as <-.
    exists EmptyString. split; [symmetry; apply append_nil_r | ].
    intros buf'. simpl. rewrite append_nil_r. reflexivity.
  - intros buf n s H. cbn [output] in *.
    destruct (h !! n) as [node | ]; [ | discriminate]. simpl in *.
    destruct (NodeType_eqb (Type_ node) TextNode).
    + injection H as <-. exists (Data node). auto.
    + apply IHf, H.
  - intros buf [c | ] s H.
    2: { assert (Hs : s = buf) by (destruct fuel; simpl in H; congruence).
         subst s. exists EmptyString.
         split; [symmetry; apply append_nil_r | ].
         intros buf'. simpl. rewrite append_nil_r. reflexivity. }
    cbn [output_children] in *.
    destruct (output fuel h buf c) as [b1 | ] eqn:Ho; [ | discriminate].
    simpl in H.
    destruct (h !! c) as [cn | ]; [ | discriminate]. simpl in H.
    destruct (IHt _ _ _ Ho) as (w1 & -> & Hw1).
    destruct (IHf _ _ _ H) as (w2 & -> & Hw2).
    exists (w1 ++ w2)%string. split; [apply append_assoc | ].
    intros buf'. rewrite Hw1. simpl. rewrite Hw2, append_assoc.
    reflexivity.
Qed.

Lemma outputXML_appends fuel (h : list Node) :
  (forall buf n s,
      outputXML fuel h buf n = Some s ->
      exists w, s = (buf ++ w)%string /\
                forall buf', outputXML fuel h buf' n
                             = Some (buf' ++ w)%string)
  /\
  (forall buf c s,
      outputXML_children fuel h buf c = Some s ->
      exists w, s = (buf ++ w)%string /\
                forall buf', outputXML_children fuel h buf' c
                             = Some (buf' ++ w)%string).
Proof.
  induction fuel as [ | fuel [IHt IHf]]; split.
  - discriminate.
  - intros buf [c | ] s H; [discriminate | ]. injection H as <-.
    exists EmptyString. split; [symmetry; apply append_nil_r | ].
    intros buf'. simpl. rewrite append_nil_r. reflexivity.
  - intros buf n s H. cbn [outputXML] in *.
    destruct (h !! n) as [node | ]; [ | discriminate]. simpl in *.
    destruct (Type_ node).
    + destruct (outputXML_children fuel h buf (FirstChild node))
        as [b2 | ] eqn:Hc; [ | discriminate].
      simpl in H. injection H as <-.
      destruct (IHf _ _ _ Hc) as (w & -> & Hw).
      exists (w ++ close_tag (Data node))%string.
      split; [apply append_assoc | ].
      intros buf'. rewrite Hw. simpl. rewrite append_assoc. reflexivity.
    + destruct (outputXML_children fuel h _ (FirstChild node))
        as [b2 | ] eqn:Hc; [ | discriminate].
      simpl in H. injection H as <-.
      destruct (IHf _ _ _ Hc) as (w & -> & Hw).
      exists (open_tag (Data node) ++ w ++ close_tag (Data node))%string.
      split; [rewrite !append_assoc; reflexivity | ].
      intros buf'. rewrite Hw. simpl. rewrite !append_assoc. reflexivity.
    + injection H as <-. exists (Data node). auto.
  - intros buf [c | ] s H.
    2: { assert (Hs : s = buf) by (destruct fuel; simpl in H; congruence).
         subst s. exists EmptyString.
         split; [symmetry; apply append_nil_r | ].
         intros buf'. simpl. rewrite append_nil_r. reflexivity. }
    cbn [outputXML_children] in *.
    destruct (outputXML fuel h buf c) as [b1 | ] eqn:Ho; [ | discriminate].
    simpl in H.
    destruct (h !! c) as [cn | ]; [ | discriminate]. simpl in H.
    destruct (IHt _ _ _ Ho) as (w1 & -> & Hw1).
    destruct (IHf _ _ _ H) as (w2 & -> & Hw2).
    exists (w1 ++ w2)%string. split; [apply append_assoc | ].
    intros buf'. rewrite Hw1. simpl. rewrite Hw2, append_assoc.
    reflexivity.
Qed.

(** X17. [output] and [outputXML] only append to the buffer: on any store,
    when a call returns, what it returns is the buffer it was given
    followed by a text that does not depend on that buffer. *)
Theorem X17_writers_only_append fuel (h : list Node) buf n s :
  (output fuel h buf n = Some s ->
   exists w, s = (buf ++ w)%string /\
             forall buf', output fuel h buf' n = Some (buf' ++ w)%string) /\
  (outputXML fuel h buf n = Some s ->
   exists w, s = (buf ++ w)%string /\
             forall buf', outputXML fuel h buf' n
                          = Some (buf' ++ w)%string).
Proof.
  split.
  - apply (proj1 (output_appends fuel h)).
  - apply (proj1 (outputXML_appends fuel h)).
Qed.

Lemma same_value_refl v : same_value v v.
Proof.
  induction v as [ | b | f | s | l IH | m IH] using value_induction;
    try constructor.
  - induction IH; constructor; auto.
  - reflexivity.
  - intros key. induction IH as [ | [k x] m Hx _ IHm]; simpl.
    + constructor.
    + destruct (String.eqb k key); [exact Hx | exact IHm].
Qed.

Lemma same_value_entries m m' :
  map_ok m -> Permutation m m' -> same_value (JObject m) (JObject m').
Proof.
  intros Hok Hp. constructor.
  - unfold map_keys. rewrite Hp. reflexivity.
  - intros key. rewrite (map_index_order m m' key Hp Hok).
    apply same_value_refl.
Qed.

End Builder.

(** ** The claims on the examples *)

Lemma C1_object_children_sorted_witness :
  exists h' cs,
    parseValue FormatInt (JObject example_object) 0 1 example_store
    = Some (tt, h') /\
    (forall k, ChildNodes (length h' + k) h' 0 = Some cs) /\
    chain_ok h' 0 cs /\
    Forall2 (fun c key => exists nc,
               h' !! c = Some nc /\ Type_ nc = ElementNode /\ Data nc = key)
            cs ["cars"; "city"; "motorist"; "name"]%string /\
    Sorted (fun a b => string_lt a b = true)
           ["cars"; "city"; "motorist"; "name"]%string /\
    Permutation ["cars"; "city"; "motorist"; "name"]%string
                ["name"; "motorist"; "city"; "cars"]%string /\
    (forall m', Permutation example_object m' ->
       parseValue FormatInt (JObject m') 0 1 example_store = Some (tt, h')).
Proof.
  apply (C1_object_children_sorted FormatInt example_object 0 1
           example_store (Node_lit DocumentNode EmptyString 0)).
  - reflexivity.
  - reflexivity.
  - reflexivity.
  - reflexivity.
  - split; vm_compute; discriminate.
  - apply (bool_decide_unpack _). vm_compute. exact I.
Defined.

Lemma C2_array_children_text_witness :
  exists h cs,
    parse FormatInt (decode_to (error := string) (JArray example_array))
          [] example_store
    = Some ((Some 1%nat, None), h) /\
    (forall k, ChildNodes (2 * length h + k) h 1 = Some cs) /\
    length cs = 3%nat /\
    Forall2 (fun c x =>
               forall k, InnerText (2 * length h + k) h c
                         = Some (canonical_text FormatInt x))
            cs example_array.
Proof.
  apply (C2_array_children_text FormatInt
           (decode_to (error := string) (JArray example_array)) []
           example_array example_store).
  - reflexivity.
  - split; vm_compute; discriminate.
Defined.

Lemma C3_null_produces_no_node_witness :
  (forall top lvl (h1 : list Node),
      parseValue FormatInt JNull top lvl h1 = Some (tt, h1)) /\
  exists h,
    parse FormatInt
          (decode_to (error := string)
             (JObject [("a"%string, JNull);
                       ("b"%string,
                        JArray [JNull;
                                JObject [("c"%string, JNull)]])]))
          [] example_store
    = Some ((Some 1%nat, None), h) /\
    (JObject [("a"%string, JNull);
              ("b"%string,
               JArray [JNull; JObject [("c"%string, JNull)]])]
     = JNull (float64 := Z) ->
     h = example_store ++ [Node_lit DocumentNode EmptyString 0]) /\
    forall p,
      value_at (JObject [("a"%string, JNull);
                         ("b"%string,
                          JArray [JNull (float64 := Z);
                                  JObject [("c"%string, JNull)]])]) p
      = Some JNull ->
      exists c nc,
        (forall k, node_at (2 * length h + k) h 1 p = Some c) /\
        h !! c = Some nc /\
        Type_ nc = match p with [] => DocumentNode | _ => ElementNode end /\
        FirstChild nc = None /\ LastChild nc = None /\
        (forall k, ChildNodes k h c = Some []).
Proof.
  apply (C3_null_produces_no_node FormatInt
           (decode_to (error := string)
              (JObject [("a"%string, JNull);
                        ("b"%string,
                         JArray [JNull;
                                 JObject [("c"%string, JNull)]])]))
           [] _ example_store).
  - reflexivity.
  - split; vm_compute; discriminate.
Defined.

Lemma C4_links_consistent_witness :
  exists h,
    parse FormatInt (decode_to (error := string) (JObject example_object))
          [] example_store
    = Some ((Some 1%nat, None), h) /\
    forall a, (1 < a < length h)%nat ->
      exists na q cs,
        h !! a = Some na /\ Parent na = Some q /\
        (1 <= q < length h)%nat /\
        (forall k, ChildNodes (2 * length h + k) h q = Some cs) /\
        chain_ok h q cs /\
        exists i, cs !! i = Some a /\ forall j, cs !! j = Some a -> j = i.
Proof.
  apply (C4_links_consistent FormatInt
           (decode_to (error := string) (JObject example_object)) []
           (JObject example_object) example_store).
  - reflexivity.
  - split; vm_compute; discriminate.
Defined.

Lemma C6_InnerText_is_text_of_subtree_witness :
  exists h,
    parse FormatInt (decode_to (error := string) (JObject example_object))
          [] example_store
    = Some ((Some 1%nat, None), h) /\
    forall n, (1 <= n < length h)%nat ->
      exists node t,
        h !! n = Some node /\
        (forall k, tree_at (2 * length h + k) h n = Some t) /\
        (forall k, InnerText (2 * length h + k) h n = Some (text_of t)) /\
        (Type_ node = TextNode -> text_of t = Data node).
Proof.
  apply (C6_InnerText_is_text_of_subtree FormatInt
           (decode_to (error := string) (JObject example_object)) []
           (JObject example_object) example_store).
  - reflexivity.
  - split; vm_compute; discriminate.
Defined.


Lemma C8_single_document_root_witness :
  exists h doc,
    parse FormatInt (decode_to (error := string) (JArray example_array))
          [] example_store
    = Some ((Some 1%nat, None), h) /\
    h !! 1%nat = Some doc /\
    Type_ doc = DocumentNode /\ Data doc = EmptyString /\
    Parent doc = None /\ PrevSibling doc = None /\
    NextSibling doc = None /\
    (forall a na, (1 < a)%nat -> h !! a = Some na ->
                  Type_ na <> DocumentNode) /\
    (forall a, (a < 1)%nat -> h !! a = example_store !! a).
Proof.
  apply (C8_single_document_root FormatInt
           (decode_to (error := string) (JArray example_array)) []
           (JArray example_array) example_store).
  - reflexivity.
  - split; vm_compute; discriminate.
Defined.

Lemma C9_Parse_error_iff_witness :
  (forall p e h,
      Parse FormatInt (decode_to (error := string) (JArray example_array))
            read_bytes [] example_store
      = Some ((p, Some e), h) <->
      p = None /\ h = example_store /\
      (None = Some e \/ (@None string = None /\ None = Some e))) /\
  (@None string = None -> @None string = None ->
   exists h doc,
     Parse FormatInt (decode_to (error := string) (JArray example_array))
           read_bytes [] example_store
     = Some ((Some 1%nat, None), h) /\
     h !! 1%nat = Some doc /\ Type_ doc = DocumentNode).
Proof.
  apply (C9_Parse_error_iff FormatInt
           (decode_to (error := string) (JArray example_array))
           read_bytes [] example_store [] None (JArray example_array) None).
  - reflexivity.
  - reflexivity.
Defined.

Lemma C10_array_one_element_per_position_witness :
  exists h' cs,
    parseValue FormatInt (JArray example_array) 0 1 example_store
    = Some (tt, h') /\
    (forall k, ChildNodes (length h' + k) h' 0 = Some cs) /\
    length cs = 3%nat /\
    Forall2 (fun c (x : @value Z) => exists nc,
               h' !! c = Some nc /\ Type_ nc = ElementNode /\
               Data nc = EmptyString /\ Parent nc = Some 0%nat /\
               (x = JNull ->
                FirstChild nc = None /\ LastChild nc = None /\
                forall k, ChildNodes k h' c = Some []))
            cs example_array.
Proof.
  apply (C10_array_one_element_per_position FormatInt example_array 0 1
           example_store (Node_lit DocumentNode EmptyString 0)).
  - reflexivity.
  - reflexivity.
  - reflexivity.
  - reflexivity.
  - split; vm_compute; discriminate.
Defined.

(** ** The tests of the repository, run on the model

    The numbers of these documents are integers; [FormatInt] stands for
    [strconv.FormatFloat] on them. *)

Example TestParseJsonNumberArray :
  texts_of_children
    (parse FormatInt
       (decode_to (error := string)
          (JArray [JNumber 1; JNumber 2; JNumber 3; JNumber 4; JNumber 5;
                   JNumber 6])) [] [])
  = Some [Some "1"; Some "2"; Some "3"; Some "4"; Some "5"; Some "6"]%string.
Proof. vm_compute. reflexivity. Qed.

Example TestParseJsonObject :
  names_of_children
    (parse FormatInt
       (decode_to (error := string)
          (JObject [("name", JString "John"); ("age", JNumber 31);
                    ("city", JString "New York")]%string)) [] [])
  = Some [Some "age"; Some "city"; Some "name"]%string /\
  texts_of_children
    (parse FormatInt
       (decode_to (error := string)
          (JObject [("name", JString "John"); ("age", JNumber 31);
                    ("city", JString "New York")]%string)) [] [])
  = Some [Some "31"; Some "New York"; Some "John"]%string.
Proof. split; vm_compute; reflexivity. Qed.

Example TestLargeFloat :
  texts_of_children
    (parse FormatInt
       (decode_to (error := string)
          (JObject [("large_number", JNumber 365823929453)]%string)) [] [])
  = Some [Some "365823929453"]%string.
Proof. vm_compute. reflexivity. Qed.

Example TestOutputXML :
  markup_of_document
    (parse FormatInt
       (decode_to (error := string)
          (JObject [("name", JString "John"); ("age", JNumber 30);
                    ("cars", JArray [JString "Fiesta"; JNull])]%string))
       [] [])
  = Some (xml_decl ++ "<age>30</age><cars><element>Fiesta</element>"
            ++ "<element></element></cars><name>John</name>")%string.
Proof. vm_compute. reflexivity. Qed.

(** ** The further properties on the examples *)

Lemma X1_addNode_appends_child_witness :
  exists h',
    addNode 0 2 example_linked = Some (tt, h') /\
    chain_ok h' 0 [1; 2]%nat /\
    length h' = 3%nat /\
    (forall a, a <> 0%nat -> a <> 2%nat -> Some 1%nat <> Some a ->
               h' !! a = example_linked !! a).
Proof.
  apply (X1_addNode_appends_child example_linked 0 2
           (mkNode None None None (Some 1%nat) (Some 1%nat) DocumentNode
                   EmptyString 0)
           (Node_lit ElementNode "b" 1) [1%nat]).
  - reflexivity.
  - reflexivity.
  - eexists. split; [reflexivity | ]. split; [reflexivity | ].
    split; [reflexivity | ].
    split; [apply (bool_decide_unpack _); vm_compute; exact I | ].
    intros [ | i] c Hc; [ | discriminate Hc].
    injection Hc as <-. eexists. split; [reflexivity | ].
    split; [reflexivity | ]. split; reflexivity.
  - apply (bool_decide_unpack _). vm_compute. exact I.
  - apply (bool_decide_unpack _). vm_compute. exact I.
  - lia.
  - reflexivity.
  - reflexivity.
  - reflexivity.
Defined.

Lemma X2_addNode_appends_sibling_witness :
  exists h',
    addNode 1 2 example_linked = Some (tt, h') /\
    chain_ok h' 0 [1; 2]%nat /\
    length h' = 3%nat /\
    (forall a, a <> 0%nat -> a <> 2%nat -> a <> 1%nat ->
               h' !! a = example_linked !! a).
Proof.
  apply (X2_addNode_appends_sibling example_linked 1 2 0
           (mkNode (Some 0%nat) None None None None ElementNode "a" 1)
           (Node_lit ElementNode "b" 1) [1%nat]).
  - reflexivity.
  - reflexivity.
  - reflexivity.
  - eexists. split; [reflexivity | ]. split; [reflexivity | ].
    split; [reflexivity | ].
    split; [apply (bool_decide_unpack _); vm_compute; exact I | ].
    intros [ | i] c Hc; [ | discriminate Hc].
    injection Hc as <-. eexists. split; [reflexivity | ].
    split; [reflexivity | ]. split; reflexivity.
  - reflexivity.
  - apply (bool_decide_unpack _). vm_compute. exact I.
  - apply (bool_decide_unpack _). vm_compute. exact I.
  - lia.
  - reflexivity.
  - reflexivity.
Defined.

Lemma X3_parseValue_writes_only_top_witness :
  exists h' tn',
    parseValue FormatInt (JArray example_array) 0 1 example_store
    = Some (tt, h') /\
    (forall a, (a < 1)%nat -> a <> 0%nat -> h' !! a = example_store !! a) /\
    h' !! 0%nat = Some tn' /\
    Parent tn' = None /\ PrevSibling tn' = None /\
    NextSibling tn' = None /\ Type_ tn' = DocumentNode /\
    Data tn' = EmptyString /\ level tn' = 0.
Proof.
  apply (X3_parseValue_writes_only_top FormatInt (JArray example_array) 0 1
           example_store (Node_lit DocumentNode EmptyString 0)).
  - reflexivity.
  - reflexivity.
  - reflexivity.
  - reflexivity.
  - split; vm_compute; discriminate.
Defined.

Lemma X4_parseValue_returns_witness :
  exists h',
    parseValue FormatInt (JObject example_object) 0 1 example_store
    = Some (tt, h') /\
    store_inv 0 h' /\ frame example_store h' /\ (1 <= length h')%nat.
Proof.
  apply (X4_parseValue_returns FormatInt (JObject example_object) 0 0 1
           example_store).
  - intros [ | a] n _ Hn; [ | discriminate Hn].
    injection Hn as <-. split; [exact I | ]. split; [exact I | ].
    intros H. exact H.
  - simpl. lia.
Defined.

Lemma X5_store_holds_tree_of_value_witness :
  exists h,
    parse FormatInt (decode_to (error := string) (JArray example_array))
          [] example_store
    = Some ((Some 1%nat, None), h) /\
    forall k, tree_at (2 * length h + k) h 1
              = Some (T DocumentNode EmptyString
                        (build FormatInt (JArray example_array))).
Proof.
  apply (X5_store_holds_tree_of_value FormatInt
           (decode_to (error := string) (JArray example_array)) []
           (JArray example_array) example_store).
  - reflexivity.
  - split; vm_compute; discriminate.
Defined.

Lemma X6_parse_allocates_node_count_witness :
  exists h,
    parse FormatInt (decode_to (error := string) (JArray example_array))
          [] example_store
    = Some ((Some 1%nat, None), h) /\
    length h
    = (length example_store + 1
       + node_count (JArray (float64 := Z) example_array))%nat.
Proof.
  apply (X6_parse_allocates_node_count FormatInt
           (decode_to (error := string) (JArray example_array)) []
           (JArray example_array) example_store).
  - reflexivity.
  - split; vm_compute; discriminate.
Defined.

Lemma X7_InnerText_of_document_witness :
  exists h,
    parse FormatInt (decode_to (error := string) (JObject example_object))
          [] example_store
    = Some ((Some 1%nat, None), h) /\
    forall k, InnerText (2 * length h + k) h 1
              = Some "FordBMWNew YorktrueJohn"%string.
Proof.
  apply (X7_InnerText_of_document FormatInt
           (decode_to (error := string) (JObject example_object)) []
           (JObject example_object) example_store).
  - reflexivity.
  - split; vm_compute; discriminate.
Defined.

Lemma X8_object_member_by_name_witness :
  exists h cs,
    parse FormatInt (decode_to (error := string) (JObject example_object))
          [] example_store
    = Some ((Some 1%nat, None), h) /\
    (forall j, ChildNodes (2 * length h + j) h 1 = Some cs) /\
    forall k x, In (k, x) (example_object (float64 := Z)) ->
      exists c nc,
        c ∈ cs /\ h !! c = Some nc /\
        Type_ nc = ElementNode /\ Data nc = k /\
        (forall j, InnerText (2 * length h + j) h c
                   = Some (canonical_text FormatInt x)) /\
        (forall c' nc', c' ∈ cs -> h !! c' = Some nc' -> Data nc' = k ->
                        c' = c).
Proof.
  apply (X8_object_member_by_name FormatInt
           (decode_to (error := string) (JObject example_object)) []
           example_object example_store).
  - reflexivity.
  - split; vm_compute; discriminate.
  - apply (bool_decide_unpack _). vm_compute. exact I.
Defined.

Lemma X9_text_nodes_are_leaves_witness :
  exists h,
    parse FormatInt (decode_to (error := string) (JArray example_array))
          [] example_store
    = Some ((Some 1%nat, None), h) /\
    forall a na, (1 <= a)%nat -> h !! a = Some na ->
      Type_ na = TextNode ->
      FirstChild na = None /\ LastChild na = None /\
      forall k, ChildNodes k h a = Some [].
Proof.
  apply (X9_text_nodes_are_leaves FormatInt
           (decode_to (error := string) (JArray example_array)) []
           (JArray example_array) example_store).
  - reflexivity.
  - split; vm_compute; discriminate.
Defined.

Lemma X10_level_is_parent_level_plus_one_witness :
  exists h doc,
    parse FormatInt (decode_to (error := string) (JArray example_array))
          [] example_store
    = Some ((Some 1%nat, None), h) /\
    h !! 1%nat = Some doc /\ level doc = 0 /\
    forall a na, (1 < a)%nat -> h !! a = Some na ->
      exists q nq,
        Parent na = Some q /\ h !! q = Some nq /\
        level na = GoInt.add (level nq) 1.
Proof.
  apply (X10_level_is_parent_level_plus_one FormatInt
           (decode_to (error := string) (JArray example_array)) []
           (JArray example_array) example_store).
  - reflexivity.
  - split; vm_compute; discriminate.
Defined.

Lemma X11_links_follow_allocation_order_witness :
  exists h,
    parse FormatInt (decode_to (error := string) (JArray example_array))
          [] example_store
    = Some ((Some 1%nat, None), h) /\
    forall a na, (1 <= a)%nat -> h !! a = Some na ->
      (forall q, Parent na = Some q -> (1 <= q < a)%nat) /\
      (forall f, FirstChild na = Some f -> f = S a) /\
      (forall l, LastChild na = Some l -> (a < l < length h)%nat) /\
      (forall s, NextSibling na = Some s -> (a < s < length h)%nat) /\
      (forall p, PrevSibling na = Some p -> (1 < p < a)%nat).
Proof.
  apply (X11_links_follow_allocation_order FormatInt
           (decode_to (error := string) (JArray example_array)) []
           (JArray example_array) example_store).
  - reflexivity.
  - split; vm_compute; discriminate.
Defined.

Lemma X12_document_childless_iff_empty_witness :
  exists h cs,
    parse FormatInt (decode_to (error := string) (JArray [])) []
          example_store
    = Some ((Some 1%nat, None), h) /\
    (forall k, ChildNodes (2 * length h + k) h 1 = Some cs) /\
    (cs = [] <->
     JArray (float64 := Z) [] = JNull \/
     JArray (float64 := Z) [] = JArray [] \/
     JArray (float64 := Z) [] = JObject []).
Proof.
  apply (X12_document_childless_iff_empty FormatInt
           (decode_to (error := string) (JArray [])) [] (JArray [])
           example_store).
  - reflexivity.
  - split; vm_compute; discriminate.
Defined.

Lemma X13_InnerText_is_that_of_children_witness :
  exists h,
    parse FormatInt (decode_to (error := string) (JObject example_object))
          [] example_store
    = Some ((Some 1%nat, None), h) /\
    forall n node, (1 <= n)%nat -> h !! n = Some node ->
      Type_ node <> TextNode ->
      exists cs texts,
        (forall k, ChildNodes (2 * length h + k) h n = Some cs) /\
        Forall2 (fun c s =>
                   forall k, InnerText (2 * length h + k) h c = Some s)
                cs texts /\
        (forall k, InnerText (2 * length h + k) h n
                   = Some (concat_strings texts)).
Proof.
  apply (X13_InnerText_is_that_of_children FormatInt
           (decode_to (error := string) (JObject example_object)) []
           (JObject example_object) example_store).
  - reflexivity.
  - split; vm_compute; discriminate.
Defined.

Lemma X14_parse_keeps_earlier_trees_witness :
  exists h,
    parse FormatInt (decode_to (error := string) (JArray example_array))
          [] example_linked
    = Some ((Some 3%nat, None), h) /\
    (forall fuel n cs,
        ChildNodes fuel example_linked n = Some cs ->
        ChildNodes fuel h n = Some cs) /\
    (forall fuel n s,
        InnerText fuel example_linked n = Some s ->
        InnerText fuel h n = Some s) /\
    (forall fuel n s,
        OutputXML fuel example_linked n = Some s ->
        OutputXML fuel h n = Some s).
Proof.
  apply (X14_parse_keeps_earlier_trees FormatInt
           (decode_to (error := string) (JArray example_array)) []
           (JArray example_array) example_linked).
  - reflexivity.
  - split; vm_compute; discriminate.
Defined.

Lemma X15_LoadURL_error_iff_witness :
  LoadURL FormatInt (decode_to (error := string) (JArray example_array))
          read_bytes
          (fun _ : string =>
             (@None (list Byte.byte), Some "connection refused"%string))
          (fun body : list Byte.byte => body)
          "http://localhost/cars.json" example_store
  = Some ((None, Some "connection refused"%string), example_store) /\
  exists h doc,
    LoadURL FormatInt (decode_to (error := string) (JArray example_array))
            read_bytes
            (fun _ : string => (Some [Byte.x5b; Byte.x5d], @None string))
            (fun body : list Byte.byte => body)
            "http://localhost/cars.json" example_store
    = Some ((Some 1%nat, None), h) /\
    h !! 1%nat = Some doc /\ Type_ doc = DocumentNode.
Proof.
  split.
  - apply (proj1 (X15_LoadURL_error_iff FormatInt
                    (decode_to (error := string) (JArray example_array))
                    read_bytes
                    (fun _ : string =>
                       (@None (list Byte.byte),
                        Some "connection refused"%string))
                    (fun body : list Byte.byte => body)
                    "http://localhost/cars.json" example_store None
                    (Some "connection refused"%string) eq_refl)).
    reflexivity.
  - apply (proj2 (proj2 (proj2 (proj2
             (X15_LoadURL_error_iff FormatInt
                (decode_to (error := string) (JArray example_array))
                read_bytes
                (fun _ : string =>
                   (Some [Byte.x5b; Byte.x5d], @None string))
                (fun body : list Byte.byte => body)
                "http://localhost/cars.json" example_store
                (Some [Byte.x5b; Byte.x5d]) None eq_refl))))
             [Byte.x5b; Byte.x5d]); reflexivity.
Defined.

Lemma X16_iteration_order_is_forgotten_witness :
  exists h,
    parse FormatInt (decode_to (error := string) (JObject example_object))
          [] example_store
    = Some ((Some 1%nat, None), h) /\
    parse FormatInt
          (decode_to (error := string) (JObject (rev example_object)))
          [] example_store
    = Some ((Some 1%nat, None), h).
Proof.
  apply (X16_iteration_order_is_forgotten FormatInt
           (fun b => match b with
                     | [] => decode_to (error := string)
                               (JObject example_object) b
                     | _ => decode_to (JObject (rev example_object)) b
                     end)
           [] [Byte.x00] (JObject example_object)
           (JObject (rev example_object)) example_store).
  - reflexivity.
  - reflexivity.
  - apply same_value_entries.
    + apply (bool_decide_unpack _). vm_compute. exact I.
    + apply Permutation_rev.
  - split; vm_compute; discriminate.
  - split; vm_compute; discriminate.
Defined.

Lemma X17_writers_only_append_witness :
  (exists w,
      "xt"%string = ("x" ++ w)%string /\
      forall buf',
        output 2 [Node_lit TextNode "t" 0] buf' 0
        = Some (buf' ++ w)%string) /\
  (exists w,
      "<<a></a>"%string = ("<" ++ w)%string /\
      forall buf',
        outputXML 2 example_linked buf' 1 = Some (buf' ++ w)%string).
Proof.
  split.
  - apply (proj1 (X17_writers_only_append 2 [Node_lit TextNode "t" 0]
                    "x" 0 "xt")).
    reflexivity.
  - apply (proj2 (X17_writers_only_append 2 example_linked "<" 1
                    "<<a></a>")).
    reflexivity.
Defined.
